(** * AVL tree visualizer: the tree engine of [avl_tree/avl.py]

    A shallow embedding of [avl_tree/node.py], [avl_tree/visualize.py] and
    [avl_tree/avl.py], followed by the properties of insertion, deletion and
    the step recorder.

    Modelling conventions.
    - Python integers are unbounded: keys and cached heights are [Z].
    - [Optional[Node]] is [tree]: [Nil] is [None].  Every node object has
      exactly one owner (its parent, or the tree object for the root), so the
      object graph is a tree and an object is represented by the value of the
      subtree hanging below it.
    - Reading or writing an attribute of [None] raises [AttributeError]; every
      attribute access is therefore in the [Result] monad.
    - The closures [_insert] and [_delete] append to the lists [logs] and
      [steps] of the enclosing call: this is the state monad [M] over [Trace].
    - [_snapshot] deep-copies [self.root].  [self.root] is reassigned only
      when the outermost recursive call has returned, and a parent attribute
      ([node.left = _insert(...)]) only when the recursive call below it has
      returned.  While a call is running at some position, what is reachable
      from [self.root] is therefore: the ancestors as they were on the way
      down, and, below them, the object the parent still points to.  The
      ancestors are the [path] argument of the recursive functions and
      [self_root] rebuilds the reachable tree. *)

From Stdlib Require Import ZArith String Ascii List Bool DecimalString Lia.
Import ListNotations.
Local Open Scope Z_scope.

Declare Scope res_scope.
Delimit Scope res_scope with res.
Declare Scope m_scope.
Delimit Scope m_scope with M.

Notation "a ^^ b" := (String.append a b) (at level 60, right associativity).

(** [str(n)] of a Python integer, as used by f-strings. *)
Definition str (z : Z) : string := NilZero.string_of_int (Z.to_int z).

(** ** Exceptions *)

Inductive Result (A : Type) : Type :=
| Ok (a : A)
| AttributeError.
Arguments Ok {A} a.
Arguments AttributeError {A}.

Definition rbind {A B : Type} (m : Result A) (f : A -> Result B) : Result B :=
  match m with
  | Ok a => f a
  | AttributeError => AttributeError
  end.

Notation "x <- m ;; k" := (rbind m (fun x => k))
  (at level 61, m at next level, right associativity) : res_scope.

(** ** node.py *)

Inductive tree : Type :=
| Nil
| Node (value : Z) (left right : tree) (height : Z).

Definition attr_value (node : tree) : Result Z :=
  match node with Node v _ _ _ => Ok v | Nil => AttributeError end.

Definition attr_left (node : tree) : Result tree :=
  match node with Node _ l _ _ => Ok l | Nil => AttributeError end.

Definition attr_right (node : tree) : Result tree :=
  match node with Node _ _ r _ => Ok r | Nil => AttributeError end.

Definition attr_height (node : tree) : Result Z :=
  match node with Node _ _ _ h => Ok h | Nil => AttributeError end.

Definition set_left (node l : tree) : Result tree :=
  match node with Node v _ r h => Ok (Node v l r h) | Nil => AttributeError end.

Definition set_right (node r : tree) : Result tree :=
  match node with Node v l _ h => Ok (Node v l r h) | Nil => AttributeError end.

Definition set_height (node : tree) (h : Z) : Result tree :=
  match node with Node v l r _ => Ok (Node v l r h) | Nil => AttributeError end.

(** ** visualize.py *)

(** [id(node)]: the identity of an object of the rendered copy, given by its
    position below the root ([false] is left, [true] is right). *)
Definition ident := list bool.

(** The statements a [Digraph] accumulates.  The attributes that are the same
    for every node ([style], [fillcolor]; [fontcolor] repeats [color]) are
    left out. *)
Inductive dot_stmt : Type :=
| DotNodeShapeCircle
| DotEmpty
| DotNode (id : ident) (label : string) (color : string)
| DotEdge (src dst : ident).

Definition Source := list dot_stmt.

Definition _node_label (node : tree) (balance : Z) : Result string :=
  (v <- attr_value node ;;
   h <- attr_height node ;;
   Ok (str v ^^ "\n(h=" ^^ str h ^^ ", b=" ^^ str balance ^^ ")"))%res.

Fixpoint _add_nodes_edges (me : ident) (node : tree) : Result (list dot_stmt) :=
  match node with
  | Nil => Ok []
  | Node _ l r _ =>
      let balance :=
        (match l with Node _ _ _ lh => lh | Nil => 0 end)
        - (match r with Node _ _ _ rh => rh | Nil => 0 end) in
      let color := if Z.abs balance >? 1 then "red"%string else "green"%string in
      (label <- _node_label node balance ;;
       dl <- match l with
             | Nil => Ok []
             | Node _ _ _ _ =>
                 (sub <- _add_nodes_edges (me ++ [false]) l ;;
                  Ok (DotEdge me (me ++ [false]) :: sub))
             end ;;
       dr <- match r with
             | Nil => Ok []
             | Node _ _ _ _ =>
                 (sub <- _add_nodes_edges (me ++ [true]) r ;;
                  Ok (DotEdge me (me ++ [true]) :: sub))
             end ;;
       Ok (DotNode me label color :: dl ++ dr))%res
  end.

(** [highlight_node] is a parameter of the source function that its body
    never reads. *)
Definition tree_to_graphviz (root : tree) (highlight_node : option Z)
  : Result Source :=
  match root with
  | Nil => Ok [DotNodeShapeCircle; DotEmpty]
  | Node _ _ _ _ =>
      (body <- _add_nodes_edges [] root ;; Ok (DotNodeShapeCircle :: body))%res
  end.

(** ** avl.py: the result bundle and the monad of the inner closures *)

Record Step : Type := mkStep { desc : string; graph : Source }.

Record Trace : Type := mkTrace { logs : list string; steps : list Step }.

Definition M (A : Type) : Type := Trace -> Result (A * Trace).

Definition ret {A : Type} (a : A) : M A := fun s => Ok (a, s).

Definition bind {A B : Type} (m : M A) (f : A -> M B) : M B :=
  fun s => match m s with
           | Ok (a, s') => f a s'
           | AttributeError => AttributeError
           end.

Definition lift {A : Type} (r : Result A) : M A :=
  fun s => match r with
           | Ok a => Ok (a, s)
           | AttributeError => AttributeError
           end.

Notation "x <- m ;; k" := (bind m (fun x => k))
  (at level 61, m at next level, right associativity) : m_scope.
Notation "x <~ r ;; k" := (bind (lift r) (fun x => k))
  (at level 61, r at next level, right associativity) : m_scope.
Notation "m ;;; k" := (bind m (fun _ => k))
  (at level 61, right associativity) : m_scope.

(** [logs.append(msg)] *)
Definition log (msg : string) : M unit :=
  fun s => Ok (tt, {| logs := logs s ++ [msg]; steps := steps s |}).

(** [steps.append(st)] *)
Definition add_step (st : Step) : M unit :=
  fun s => Ok (tt, {| logs := logs s; steps := steps s ++ [st] |}).

(** ** avl.py: the tree object *)

Record AVLTree : Type := mkAVLTree { root : tree; last_action : option string }.

(** [AVLTree.__init__] *)
Definition AVLTree_init : AVLTree := {| root := Nil; last_action := None |}.

Definition get_height (node : tree) : Z :=
  match node with Node _ _ _ h => h | Nil => 0 end.

Definition update_height (node : tree) : Result tree :=
  (l <- attr_left node ;;
   r <- attr_right node ;;
   set_height node (1 + Z.max (get_height l) (get_height r)))%res.

Definition get_balance (node : tree) : Z :=
  match node with
  | Nil => 0
  | Node _ l r _ => get_height l - get_height r
  end.

Fixpoint _count (n : tree) : Z :=
  match n with
  | Nil => 0
  | Node _ l r _ => 1 + _count l + _count r
  end.

Definition count_nodes (self : AVLTree) : Z := _count (root self).

(** *** Rotations

    [x.right = y] stores a reference: the new root's child is the old root
    after all the writes to it, so the old root is rebuilt first. *)
Definition right_rotate (y : tree) : Result tree :=
  (x <- attr_left y ;;
   T2 <- attr_right x ;;
   y <- set_left y T2 ;;
   y <- update_height y ;;
   x <- set_right x y ;;
   update_height x)%res.

Definition left_rotate (x : tree) : Result tree :=
  (y <- attr_right x ;;
   T2 <- attr_left y ;;
   x <- set_right x T2 ;;
   x <- update_height x ;;
   y <- set_left y x ;;
   update_height y)%res.

(** *** What [self.root] reaches during a recursive call *)

(** An ancestor of the current position, as it was left on the way down, and
    the side on which the recursion went. *)
Inductive frame : Type :=
| InLeft (value : Z) (right : tree) (height : Z)
| InRight (value : Z) (left : tree) (height : Z).

(** The ancestors, the parent first. *)
Definition path := list frame.

(** The tree reachable from [self.root] when [here] is what the parent of the
    current position still points to. *)
Fixpoint self_root (c : path) (here : tree) : tree :=
  match c with
  | [] => here
  | InLeft v r h :: c' => self_root c' (Node v here r h)
  | InRight v l h :: c' => self_root c' (Node v l here h)
  end.

(** [AVLTree._snapshot]; [reachable] is the value of [self.root] at the call
    ([copy.deepcopy] is the identity on values).  The step has the two entries
    [desc] and [graph]. *)
Definition _snapshot (reachable : tree) (description : string) (node : tree)
  : Result Step :=
  let root_copy := reachable in
  (graph <- tree_to_graphviz root_copy
              (match node with Node v _ _ _ => Some v | Nil => None end) ;;
   Ok {| desc := description; graph := graph |})%res.

(** [steps.append(self._snapshot(desc, node))] *)
Definition record (reachable : tree) (description : string) (node : tree)
  : M unit :=
  (st <~ _snapshot reachable description node ;; add_step st)%M.

(** [a and b], where evaluating [b] may raise *)
Definition and_then (a : bool) (b : Result bool) : Result bool :=
  if a then b else Ok false.

(** *** Insert *)

(** The part of the closure [_insert] that runs once the recursive call has
    returned and the child has been reassigned: height update, balance, and
    the four rotation cases in the order of the source.  After
    [node = self.right_rotate(node)] the parent still points to the old
    object, which is now the right child of the new [node] (its left child
    after a left rotation). *)
Definition _insert_rebalance (c : path) (node : tree) (key : Z) : M tree :=
  (node <~ update_height node ;;
   let balance := get_balance node in
   v <~ attr_value node ;;
   h <~ attr_height node ;;
   log ("At node " ^^ str v ^^ ": height=" ^^ str h
        ^^ ", balance=" ^^ str balance) ;;;
   ll <~ and_then (balance >? 1)
           (l <- attr_left node ;; lv <- attr_value l ;; Ok (key <? lv))%res ;;
   if ll then
     log ("Right Rotation (LL) at node " ^^ str v) ;;;
     record (self_root c node) ("LL case before rotation at " ^^ str v) node ;;;
     node' <~ right_rotate node ;;
     v' <~ attr_value node' ;;
     old <~ attr_right node' ;;
     record (self_root c old) ("After Right Rotation at " ^^ str v') node' ;;;
     ret node'
   else
   rr <~ and_then (balance <? -1)
           (r <- attr_right node ;; rv <- attr_value r ;; Ok (key >? rv))%res ;;
   if rr then
     log ("Left Rotation (RR) at node " ^^ str v) ;;;
     record (self_root c node) ("RR case before rotation at " ^^ str v) node ;;;
     node' <~ left_rotate node ;;
     v' <~ attr_value node' ;;
     old <~ attr_left node' ;;
     record (self_root c old) ("After Left Rotation at " ^^ str v') node' ;;;
     ret node'
   else
   lr <~ and_then (balance >? 1)
           (l <- attr_left node ;; lv <- attr_value l ;; Ok (key >? lv))%res ;;
   if lr then
     log ("Left-Right Rotation (LR) at node " ^^ str v) ;;;
     record (self_root c node) ("LR case before rotations at " ^^ str v) node ;;;
     l <~ attr_left node ;;
     l' <~ left_rotate l ;;
     node <~ set_left node l' ;;
     record (self_root c node)
       ("After left-rotation of left child of " ^^ str v) node ;;;
     node' <~ right_rotate node ;;
     v' <~ attr_value node' ;;
     old <~ attr_right node' ;;
     record (self_root c old) ("After right-rotation at " ^^ str v') node' ;;;
     ret node'
   else
   rl <~ and_then (balance <? -1)
           (r <- attr_right node ;; rv <- attr_value r ;; Ok (key <? rv))%res ;;
   if rl then
     log ("Right-Left Rotation (RL) at node " ^^ str v) ;;;
     record (self_root c node) ("RL case before rotations at " ^^ str v) node ;;;
     r <~ attr_right node ;;
     r' <~ right_rotate r ;;
     node <~ set_right node r' ;;
     record (self_root c node)
       ("After right-rotation of right child of " ^^ str v) node ;;;
     node' <~ left_rotate node ;;
     v' <~ attr_value node' ;;
     old <~ attr_left node' ;;
     record (self_root c old) ("After left-rotation at " ^^ str v') node' ;;;
     ret node'
   else
     ret node)%M.

(** The closure [_insert] of [AVLTree.insert]; [c] holds the ancestors of
    [node]. *)
Fixpoint _insert (c : path) (node : tree) (key : Z) : M tree :=
  match node with
  | Nil =>
      (let n := Node key Nil Nil 1 in
       log ("Created node " ^^ str key) ;;;
       record (self_root c Nil) ("Inserted " ^^ str key) Nil ;;;
       ret n)%M
  | Node v l r h =>
      if key <? v then
        (l' <- _insert (InLeft v r h :: c) l key ;;
         _insert_rebalance c (Node v l' r h) key)%M
      else if key >? v then
        (r' <- _insert (InRight v l h :: c) r key ;;
         _insert_rebalance c (Node v l r' h) key)%M
      else
        (log ("Key " ^^ str key ^^ " already present; ignoring.") ;;;
         ret node)%M
  end.

(** [AVLTree.insert]: the new state of the object and the returned dict. *)
Definition insert (self : AVLTree) (key : Z) : Result (AVLTree * Trace) :=
  let start := {| logs := ["Insert " ^^ str key]; steps := [] |} in
  let self := {| root := root self;
                 last_action := Some ("Insert " ^^ str key) |} in
  (res <- _insert [] (root self) key start ;;
   Ok ({| root := fst res; last_action := last_action self |}, snd res))%res.

(** *** Delete *)

Fixpoint _min_value_node (node : tree) : Result tree :=
  match node with
  | Nil => AttributeError
  | Node _ l _ _ =>
      match l with
      | Nil => Ok node
      | Node _ _ _ _ => _min_value_node l
      end
  end.

(** The part of the closure [_delete] from [if not node: return None] to the
    end: height update, balance, and the four rotation cases decided by the
    balance of the child. *)
Definition _delete_rebalance (c : path) (node : tree) : M tree :=
  match node with
  | Nil => ret Nil
  | Node _ _ _ _ =>
  (node <~ update_height node ;;
   let balance := get_balance node in
   v <~ attr_value node ;;
   h <~ attr_height node ;;
   log ("At node " ^^ str v ^^ ": height=" ^^ str h
        ^^ ", balance=" ^^ str balance) ;;;
   l <~ attr_left node ;;
   if (balance >? 1) && (get_balance l >=? 0) then
     log ("Right Rotation (LL) at node " ^^ str v) ;;;
     record (self_root c node) ("LL rebalance before at " ^^ str v) node ;;;
     node' <~ right_rotate node ;;
     v' <~ attr_value node' ;;
     old <~ attr_right node' ;;
     record (self_root c old) ("After Right Rotation at " ^^ str v') node' ;;;
     ret node'
   else
   if (balance >? 1) && (get_balance l <? 0) then
     log ("Left-Right Rotation (LR) at node " ^^ str v) ;;;
     record (self_root c node) ("LR rebalance before at " ^^ str v) node ;;;
     l' <~ left_rotate l ;;
     node <~ set_left node l' ;;
     record (self_root c node)
       ("After left-rotation of left child of " ^^ str v) node ;;;
     node' <~ right_rotate node ;;
     v' <~ attr_value node' ;;
     old <~ attr_right node' ;;
     record (self_root c old) ("After right-rotation at " ^^ str v') node' ;;;
     ret node'
   else
   r <~ attr_right node ;;
   if (balance <? -1) && (get_balance r <=? 0) then
     log ("Left Rotation (RR) at node " ^^ str v) ;;;
     record (self_root c node) ("RR rebalance before at " ^^ str v) node ;;;
     node' <~ left_rotate node ;;
     v' <~ attr_value node' ;;
     old <~ attr_left node' ;;
     record (self_root c old) ("After Left Rotation at " ^^ str v') node' ;;;
     ret node'
   else
   if (balance <? -1) && (get_balance r >? 0) then
     log ("Right-Left Rotation (RL) at node " ^^ str v) ;;;
     record (self_root c node) ("RL rebalance before at " ^^ str v) node ;;;
     r' <~ right_rotate r ;;
     node <~ set_right node r' ;;
     record (self_root c node)
       ("After right-rotation of right child of " ^^ str v) node ;;;
     node' <~ left_rotate node ;;
     v' <~ attr_value node' ;;
     old <~ attr_left node' ;;
     record (self_root c old) ("After left-rotation at " ^^ str v') node' ;;;
     ret node'
   else
     ret node)%M
  end.

(** The closure [_delete] of [AVLTree.delete]; [c] holds the ancestors of
    [node]. *)
Fixpoint _delete (c : path) (node : tree) (key : Z) : M tree :=
  match node with
  | Nil => (log ("Key " ^^ str key ^^ " not found.") ;;; ret Nil)%M
  | Node v l r h =>
      if key <? v then
        (l' <- _delete (InLeft v r h :: c) l key ;;
         _delete_rebalance c (Node v l' r h))%M
      else if key >? v then
        (r' <- _delete (InRight v l h :: c) r key ;;
         _delete_rebalance c (Node v l r' h))%M
      else
        (log ("Found node " ^^ str v ^^ " for deletion") ;;;
         record (self_root c node) ("Deleting " ^^ str v) node ;;;
         match l with
         | Nil =>
             let temp := r in
             log ("Node " ^^ str v
                  ^^ " has no left child, replace with right child") ;;;
             ret temp
         | Node _ _ _ _ =>
             match r with
             | Nil =>
                 let temp := l in
                 log ("Node " ^^ str v
                      ^^ " has no right child, replace with left child") ;;;
                 ret temp
             | Node _ _ _ _ =>
                 temp <~ _min_value_node r ;;
                 tv <~ attr_value temp ;;
                 log ("In-order successor is " ^^ str tv) ;;;
                 r' <- _delete (InRight tv l h :: c) r tv ;;
                 _delete_rebalance c (Node tv l r' h)
             end
         end)%M
  end.

(** [AVLTree.delete] *)
Definition delete (self : AVLTree) (key : Z) : Result (AVLTree * Trace) :=
  let start := {| logs := ["Delete " ^^ str key]; steps := [] |} in
  let self := {| root := root self;
                 last_action := Some ("Delete " ^^ str key) |} in
  (res <- _delete [] (root self) key start ;;
   Ok ({| root := fst res; last_action := last_action self |}, snd res))%res.

(** *** Search *)

Fixpoint _search (node : tree) (key : Z) : bool :=
  match node with
  | Nil => false
  | Node v l r _ =>
      if key =? v then true
      else if key <? v then _search l key
      else _search r key
  end.

Definition search (self : AVLTree) (key : Z) : bool := _search (root self) key.

(** ** Sequences of public calls *)

Inductive op : Type :=
| Insert (key : Z)
| Delete (key : Z).

Definition apply_op (self : AVLTree) (o : op) : Result (AVLTree * Trace) :=
  match o with
  | Insert k => insert self k
  | Delete k => delete self k
  end.

(** The calls of [ops], first to last, on [self]; the returned dicts are
    dropped. *)
Fixpoint run (self : AVLTree) (ops : list op) : Result AVLTree :=
  match ops with
  | [] => Ok self
  | o :: ops' =>
      (res <- apply_op self o ;; run (fst res) ops')%res
  end.

(** ** Invariants *)

(** In-order traversal. *)
Fixpoint keys (t : tree) : list Z :=
  match t with
  | Nil => []
  | Node v l r _ => keys l ++ v :: keys r
  end.

(** [P] holds of every node object of [t]. *)
Fixpoint all_nodes (P : tree -> Prop) (t : tree) : Prop :=
  match t with
  | Nil => True
  | Node _ l r _ => P t /\ all_nodes P l /\ all_nodes P r
  end.

(** AVL balance at one node. *)
Definition balance_ok (node : tree) : Prop := -1 <= get_balance node <= 1.

(** Height cache at one node. *)
Definition height_ok (node : tree) : Prop :=
  match node with
  | Nil => True
  | Node _ l r h => h = 1 + Z.max (get_height l) (get_height r)
  end.

(** BST order at one node. *)
Definition bst_ok (node : tree) : Prop :=
  match node with
  | Nil => True
  | Node v l r _ =>
      (forall k, In k (keys l) -> k < v) /\ (forall k, In k (keys r) -> v < k)
  end.

(** Strictly increasing. *)
Fixpoint increasing (ks : list Z) : Prop :=
  match ks with
  | [] => True
  | k :: ks' => (forall k', In k' ks' -> k < k') /\ increasing ks'
  end.

(** Height cache and balance together, as one recursive predicate. *)
Fixpoint shape (t : tree) : Prop :=
  match t with
  | Nil => True
  | Node _ l r h =>
      shape l /\ shape r
      /\ h = 1 + Z.max (get_height l) (get_height r)
      /\ -1 <= get_height l - get_height r <= 1
  end.

(** After an insertion made the subtree taller: either it is the new leaf, or
    the side the key went to is the strictly taller one. *)
Definition grew (t : tree) (key : Z) : Prop :=
  match t with
  | Nil => False
  | Node v l r _ =>
      (l = Nil /\ r = Nil)
      \/ (key < v /\ get_height r < get_height l)
      \/ (v < key /\ get_height l < get_height r)
  end.

(** ** A weakest-precondition reading of [M] *)

Definition wp {A : Type} (m : M A) (s : Trace) (Q : A -> Trace -> Prop) : Prop :=
  match m s with
  | Ok (a, s') => Q a s'
  | AttributeError => False
  end.

(** A total rendering, equal to what [tree_to_graphviz] returns. *)
Fixpoint render_nodes (me : ident) (node : tree) : list dot_stmt :=
  match node with
  | Nil => []
  | Node v l r h =>
      let balance := get_height l - get_height r in
      DotNode me
        (str v ^^ "\n(h=" ^^ str h ^^ ", b=" ^^ str balance ^^ ")")
        (if Z.abs balance >? 1 then "red"%string else "green"%string)
      :: (match l with
          | Nil => []
          | Node _ _ _ _ =>
              DotEdge me (me ++ [false]) :: render_nodes (me ++ [false]) l
          end)
      ++ (match r with
          | Nil => []
          | Node _ _ _ _ =>
              DotEdge me (me ++ [true]) :: render_nodes (me ++ [true]) r
          end)
  end.

Definition render (t : tree) : Source :=
  DotNodeShapeCircle ::
  match t with
  | Nil => [DotEmpty]
  | Node _ _ _ _ => render_nodes [] t
  end.

(** The three invariants of the data model, at every node. *)
Definition avl_inv (t : tree) : Prop :=
  all_nodes height_ok t /\ all_nodes balance_ok t /\ all_nodes bst_ok t.

(** ** The rotation cases as the specification words them *)

Inductive rotation_case : Type := LL | LR | RR | RL.

(** LL: single right rotation at this node.  RR: single left rotation at this
    node.  LR: left-rotate the left child in place, then right-rotate this
    node.  RL: right-rotate the right child in place, then left-rotate this
    node. *)
Definition spec_rotate (k : rotation_case) (node : tree) : Result tree :=
  match k with
  | LL => right_rotate node
  | RR => left_rotate node
  | LR => (l <- attr_left node ;; l' <- left_rotate l ;;
           node <- set_left node l' ;; right_rotate node)%res
  | RL => (r <- attr_right node ;; r' <- right_rotate r ;;
           node <- set_right node r' ;; left_rotate node)%res
  end.

(** The log line naming the case. *)
Definition case_line (k : rotation_case) (v : Z) : string :=
  match k with
  | LL => "Right Rotation (LL) at node " ^^ str v
  | LR => "Left-Right Rotation (LR) at node " ^^ str v
  | RR => "Left Rotation (RR) at node " ^^ str v
  | RL => "Right-Left Rotation (RL) at node " ^^ str v
  end.

Definition at_node_line (v h balance : Z) : string :=
  "At node " ^^ str v ^^ ": height=" ^^ str h ^^ ", balance=" ^^ str balance.

(** [out] is what rebalancing [node] by case [k] gives: the rotated subtree,
    the two log lines, and some recorded steps; or the exception the rotation
    raises. *)
Definition dispatched (k : rotation_case) (node : tree) (v : Z)
    (before : Trace) (out : Result (tree * Trace)) : Prop :=
  match spec_rotate k node with
  | Ok t' =>
      exists recorded,
        out = Ok (t', {| logs := logs before
                           ++ [at_node_line v (get_height node) (get_balance node);
                               case_line k v];
                         steps := steps before ++ recorded |})
  | AttributeError => out = AttributeError
  end.

(** The deletion rules: the case is chosen by the balance of the node and
    the sign of the balance of the child on the heavy side. *)
Definition spec_delete_case (balance bl br : Z) (k : rotation_case) : Prop :=
  match k with
  | LL => balance > 1 /\ bl >= 0
  | LR => balance > 1 /\ bl < 0
  | RR => balance < -1 /\ br <= 0
  | RL => balance < -1 /\ br > 0
  end.

(** The log lines of the two no-op outcomes. *)
Definition ignored_line (key : Z) : string :=
  "Key " ^^ str key ^^ " already present; ignoring.".

Definition not_found_line (key : Z) : string :=
  "Key " ^^ str key ^^ " not found.".





(** The three ways the closure [_delete], called on a present node [node]
    with key [key] and trace [s], reaches its rebalancing code (from
    [if not node: return None] on): after the recursive call on the left
    child, after the recursive call on the right child, and, at the node that
    holds the key and has two children, after the successor's key was copied
    into the node and deleted from the right subtree.  The node object is
    then [node1] and the trace [s1]. *)
Inductive unwinds_to (c : path) : tree -> Z -> Trace -> tree -> Trace -> Prop :=
| unwind_left (v : Z) (l r : tree) (h key : Z) (s : Trace) (l' : tree)
    (s1 : Trace) :
    key < v ->
    _delete (InLeft v r h :: c) l key s = Ok (l', s1) ->
    unwinds_to c (Node v l r h) key s (Node v l' r h) s1
| unwind_right (v : Z) (l r : tree) (h key : Z) (s : Trace) (r' : tree)
    (s1 : Trace) :
    v < key ->
    _delete (InRight v l h :: c) r key s = Ok (r', s1) ->
    unwinds_to c (Node v l r h) key s (Node v l r' h) s1
| unwind_successor (v : Z) (l r : tree) (h : Z) (s : Trace) (st : Step)
    (temp : tree) (tv : Z) (r' : tree) (s1 : Trace) :
    l <> Nil -> r <> Nil ->
    _snapshot (self_root c (Node v l r h)) ("Deleting " ^^ str v)
      (Node v l r h) = Ok st ->
    _min_value_node r = Ok temp ->
    attr_value temp = Ok tv ->
    _delete (InRight tv l h :: c) r tv
      {| logs := (logs s ++ ["Found node " ^^ str v ^^ " for deletion"])
                 ++ ["In-order successor is " ^^ str tv];
         steps := steps s ++ [st] |}
    = Ok (r', s1) ->
    unwinds_to c (Node v l r h) v s (Node tv l r' h) s1.

(** The tree [Insert 10; Insert 20; Insert 30] builds. *)
Definition example_tree : AVLTree :=
  {| root := Node 20 (Node 10 Nil Nil 1) (Node 30 Nil Nil 1) 2;
     last_action := Some "Insert 30"%string |}.


(** ** Further definitions: structural height, statements of a graph *)

(** The height of the tree as a structure, whatever the cached fields say. *)
Fixpoint depth (t : tree) : Z :=
  match t with
  | Nil => 0
  | Node _ l r _ => 1 + Z.max (depth l) (depth r)
  end.

(** Running [m] only appends to the recorded steps. *)
Definition extends {A : Type} (m : M A) : Prop :=
  forall s a s', m s = Ok (a, s') -> exists more, steps s' = steps s ++ more.

Definition is_node_stmt (st : dot_stmt) : bool :=
  match st with DotNode _ _ _ => true | _ => false end.

Definition is_edge_stmt (st : dot_stmt) : bool :=
  match st with DotEdge _ _ => true | _ => false end.

(** A node statement coloured red. *)
Definition is_red (st : dot_stmt) : bool :=
  match st with
  | DotNode _ _ color => String.eqb color "red"
  | _ => false
  end.

(** ** utils/helpers.py *)

(** The character a Python literal writes as a backslash followed by n in
    an ordinary string. *)
Definition nl : string := String (ascii_of_nat 10) EmptyString.

Definition insert_pseudocode : string :=
  "Insert(key):" ^^ nl
  ^^ "1. Perform BST insert." ^^ nl
  ^^ "2. Update heights moving up." ^^ nl
  ^^ "3. Compute balance = height(left) - height(right)." ^^ nl
  ^^ "4. If balance > 1 and key < left.value -> Right rotate (LL)." ^^ nl
  ^^ "   If balance < -1 and key > right.value -> Left rotate (RR)." ^^ nl
  ^^ "   If balance > 1 and key > left.value -> Left-then-Right (LR)." ^^ nl
  ^^ "   If balance < -1 and key < right.value -> Right-then-Left (RL)." ^^ nl
  ^^ "5. Update heights after rotations." ^^ nl.

Definition delete_pseudocode : string :=
  "Delete(key):" ^^ nl
  ^^ "1. Perform BST delete." ^^ nl
  ^^ "2. If node had two children, replace with in-order successor." ^^ nl
  ^^ "3. Update heights moving up." ^^ nl
  ^^ "4. Rebalance similarly to insert using balance factors." ^^ nl.

(** [not action] holds of [None] and of the empty string. *)
Definition pseudocode_for_last_action (action : option string) : string :=
  match action with
  | None => "No actions yet."
  | Some a =>
      if String.eqb a "" then "No actions yet."
      else if String.prefix "Insert" a then insert_pseudocode
      else if String.prefix "Delete" a then delete_pseudocode
      else "Action: " ^^ a ^^ nl ^^ "No detailed pseudocode available."
  end.

(** ** app.py *)

(** [getattr(avl, "last_action", None) or "No actions yet."] *)
Definition shown_action (avl : AVLTree) : string :=
  match last_action avl with
  | None => "No actions yet."
  | Some a => if String.eqb a "" then "No actions yet." else a
  end.

Definition shown_pseudocode (avl : AVLTree) : string :=
  pseudocode_for_last_action (Some (shown_action avl)).

(** The lines of the operation log the page writes, in the order it writes
    them: [reversed(st.session_state.logs[-200:])]. *)
Definition shown_logs (session_logs : list string) : list string :=
  rev (skipn (length session_logs - 200) session_logs).

(** Python [l[i]]: a negative index counts from the end, and [None] stands
    for [IndexError]. *)
Definition getitem {A : Type} (l : list A) (i : Z) : option A :=
  let n := Z.of_nat (length l) in
  if (0 <=? i) && (i <? n) then nth_error l (Z.to_nat i)
  else if (- n <=? i) && (i <? 0) then nth_error l (Z.to_nat (n + i))
  else None.

(** The entries of [st.session_state] the playback block reads and writes. *)
Record Session : Type := mkSession {
  step_mode : bool;
  session_steps : list Step;
  step_index : Z;
  should_rerun : bool
}.

Definition set_step_index (ss : Session) (i : Z) : Session :=
  {| step_mode := step_mode ss; session_steps := session_steps ss;
     step_index := i; should_rerun := should_rerun ss |}.

Definition set_should_rerun (ss : Session) (b : bool) : Session :=
  {| step_mode := step_mode ss; session_steps := session_steps ss;
     step_index := step_index ss; should_rerun := b |}.

(** What the playback block writes: "Step n / total" and the description
    of the step. *)
Record Shown : Type := mkShown {
  shown_number : Z; shown_total : Z; shown_desc : string
}.

(** The step-by-step playback block; [prev_btn] and [next_btn] are what the
    two [st.button] calls return.  [None] stands for an [IndexError] at
    [steps[step_idx]]. *)
Definition playback (ss : Session) (prev_btn next_btn : bool)
  : option (option Shown * Session) :=
  if step_mode ss && negb (Nat.eqb (length (session_steps ss)) 0) then
    let step_idx := step_index ss in
    let total := Z.of_nat (length (session_steps ss)) in
    let '(step_idx, ss) :=
      if step_idx <? 0 then (0, set_step_index ss 0) else (step_idx, ss) in
    let '(step_idx, ss) :=
      if step_idx >=? total
      then (Z.max 0 (total - 1), set_step_index ss (Z.max 0 (total - 1)))
      else (step_idx, ss) in
    match getitem (session_steps ss) step_idx with
    | None => None
    | Some st =>
        let shown := {| shown_number := step_idx + 1; shown_total := total;
                        shown_desc := desc st |} in
        let ss :=
          if prev_btn && (step_idx >? 0)
          then set_should_rerun (set_step_index ss (step_idx - 1)) true
          else ss in
        let ss :=
          if next_btn && (step_idx <? total - 1)
          then set_should_rerun (set_step_index ss (step_idx + 1)) true
          else ss in
        Some (Some shown, ss)
    end
  else Some (None, ss).

Section Rendering.

Lemma add_nodes_edges_total (node : tree) :
  forall me, _add_nodes_edges me node = Ok (render_nodes me node).
Proof.
  induction node as [|v l IHl r IHr h]; intros me; [reflexivity|].
  cbn [_add_nodes_edges render_nodes _node_label attr_value attr_height rbind].
  destruct l as [|lv ll lr lh]; destruct r as [|rv rl rr rh];
    try rewrite IHl; try rewrite IHr; reflexivity.
Qed.

Lemma tree_to_graphviz_total (t : tree) (hl : option Z) :
  tree_to_graphviz t hl = Ok (render t).
Proof.
  destruct t as [|v l r h]; [reflexivity|].
  unfold tree_to_graphviz. rewrite add_nodes_edges_total. reflexivity.
Qed.

Lemma snapshot_total (reachable : tree) (d : string) (node : tree) :
  _snapshot reachable d node = Ok {| desc := d; graph := render reachable |}.
Proof. unfold _snapshot. rewrite tree_to_graphviz_total. reflexivity. Qed.

Lemma record_run (reachable : tree) (d : string) (node : tree) (s : Trace) :
  record reachable d node s
  = Ok (tt, {| logs := logs s;
               steps := steps s ++ [{| desc := d; graph := render reachable |}] |}).
Proof. unfold record, bind, lift. rewrite snapshot_total. reflexivity. Qed.

End Rendering.

Section WP.

Context {A B : Type}.

Lemma wp_ret (a : A) (s : Trace) (Q : A -> Trace -> Prop) :
  Q a s -> wp (ret a) s Q.
Proof. exact (fun H => H). Qed.

Lemma wp_bind (m : M A) (f : A -> M B) (s : Trace) (Q : B -> Trace -> Prop) :
  wp m s (fun a s' => wp (f a) s' Q) -> wp (bind m f) s Q.
Proof.
  unfold wp, bind. destruct (m s) as [[a s']|]; [exact (fun H => H)|contradiction].
Qed.

Lemma wp_lift (r : Result A) (s : Trace) (Q : A -> Trace -> Prop) :
  match r with Ok a => Q a s | AttributeError => False end -> wp (lift r) s Q.
Proof. unfold wp, lift. destruct r; exact (fun H => H). Qed.

Lemma wp_mono (m : M A) (s : Trace) (P Q : A -> Trace -> Prop) :
  wp m s P -> (forall a s', P a s' -> Q a s') -> wp m s Q.
Proof.
  unfold wp. destruct (m s) as [[a s']|]; [|contradiction].
  intros HP HPQ. apply HPQ, HP.
Qed.

Lemma wp_exists (m : M A) (s : Trace) (Q : A -> Trace -> Prop) :
  wp m s Q <-> exists a s', m s = Ok (a, s') /\ Q a s'.
Proof.
  unfold wp. split.
  - destruct (m s) as [[a s']|]; [|contradiction].
    intros HQ. exists a, s'. split; [reflexivity|exact HQ].
  - intros (a & s' & -> & HQ). exact HQ.
Qed.

End WP.

Lemma wp_log (msg : string) (s : Trace) (Q : unit -> Trace -> Prop) :
  Q tt {| logs := logs s ++ [msg]; steps := steps s |} -> wp (log msg) s Q.
Proof. exact (fun H => H). Qed.

Lemma wp_record (reachable : tree) (d : string) (node : tree) (s : Trace)
    (Q : unit -> Trace -> Prop) :
  Q tt {| logs := logs s;
          steps := steps s ++ [{| desc := d; graph := render reachable |}] |} ->
  wp (record reachable d node) s Q.
Proof. unfold wp. rewrite record_run. exact (fun H => H). Qed.

(** ** Proof automation for [M] programs *)

Ltac simp :=
  cbn [rbind attr_value attr_left attr_right attr_height set_left set_right
       set_height update_height right_rotate left_rotate and_then andb
       get_height get_balance].

Ltac destruct_cmp b :=
  lazymatch b with
  | (?x && _)%bool => destruct_cmp x
  | ?x >? ?y => destruct (Z.gtb_spec x y)
  | ?x <? ?y => destruct (Z.ltb_spec x y)
  | ?x >=? ?y => destruct (Z.geb_spec x y)
  | ?x <=? ?y => destruct (Z.leb_spec x y)
  end.

(** Decide the test the program is about to branch on. *)
Ltac case_head :=
  simp;
  lazymatch goal with
  | |- wp (if ?b then _ else _) _ _ => destruct_cmp b
  | |- wp (lift (and_then ?b _)) _ _ => destruct_cmp b
  end; simp; try (exfalso; lia).

Ltac wp_step :=
  first
    [ case_head
    | apply wp_ret
    | apply wp_log
    | apply wp_record
    | apply wp_lift; simp
    | apply wp_bind ].

Ltac wp_run := repeat wp_step.

Ltac keys_eq :=
  cbn [keys]; repeat (rewrite <- app_assoc || rewrite <- app_comm_cons);
  reflexivity.

Ltac in_logs :=
  cbn [logs]; intros; repeat (apply in_or_app; left); assumption.

Ltac steps_ext :=
  cbn [steps]; rewrite <- ?app_assoc;
  first [ eexists; reflexivity | exists []; rewrite app_nil_r; reflexivity ].

Ltac post :=
  cbn [shape keys get_height steps logs];
  repeat split; try lia; try assumption; try keys_eq; try in_logs;
  try steps_ext.

(** ** Heights *)

Lemma shape_nonneg (t : tree) : shape t -> 0 <= get_height t.
Proof.
  induction t as [|v l IHl r IHr h]; cbn [shape get_height]; [lia|].
  intros (Hl & Hr & -> & _). specialize (IHl Hl). lia.
Qed.

Lemma shape_all_nodes (t : tree) :
  shape t <-> all_nodes height_ok t /\ all_nodes balance_ok t.
Proof.
  induction t as [|v l IHl r IHr h];
    cbn [shape all_nodes height_ok balance_ok]; [tauto|].
  unfold balance_ok at 1. cbn [get_balance]. tauto.
Qed.

(** ** Rebalancing after an insertion below *)

Section InsertRebalance.

Variables (c : path) (v : Z) (l r : tree) (h key : Z) (s : Trace).
Hypothesis shape_l : shape l.
Hypothesis shape_r : shape r.
Hypothesis off_by_two : -2 <= get_height l - get_height r <= 2.
Hypothesis left_grew : get_height l - get_height r = 2 -> grew l key.
Hypothesis right_grew : get_height l - get_height r = -2 -> grew r key.

Lemma insert_rebalance_spec :
  wp (_insert_rebalance c (Node v l r h) key) s (fun t' s' =>
      shape t'
      /\ keys t' = keys l ++ v :: keys r
      /\ (-1 <= get_height l - get_height r <= 1 ->
          t' = Node v l r (1 + Z.max (get_height l) (get_height r))
          /\ steps s' = steps s)
      /\ (get_height l - get_height r = 2 \/ get_height l - get_height r = -2 ->
          get_height t' = Z.max (get_height l) (get_height r))
      /\ (forall m, In m (logs s) -> In m (logs s'))
      /\ (exists more, steps s' = steps s ++ more)).
Proof.
  pose proof (shape_nonneg _ shape_l). pose proof (shape_nonneg _ shape_r).
  revert shape_l shape_r off_by_two left_grew right_grew.
  intros Hl Hr Hb Gl Gr.
  unfold _insert_rebalance.
  destruct (Z.eq_dec (get_height l - get_height r) 2) as [E|E].
  - (* the left subtree is two levels taller *)
    specialize (Gl E). clear Gr.
    destruct l as [|lv ll lr lh]; [contradiction|].
    cbn [shape grew get_height] in *.
    destruct Hl as (Hll & Hlr & -> & Hlb).
    pose proof (shape_nonneg _ Hll). pose proof (shape_nonneg _ Hlr).
    destruct Gl as [[-> ->]|[[Hk Hh]|[Hk Hh]]].
    + cbn [get_height] in *. exfalso; lia.
    + (* LL *) wp_run. post.
    + (* LR *)
      destruct lr as [|lrv lrl lrr lrh]; [cbn [get_height] in *; lia|].
      cbn [shape get_height] in *.
      destruct Hlr as (Hlrl & Hlrr & -> & Hlrb).
      pose proof (shape_nonneg _ Hlrl). pose proof (shape_nonneg _ Hlrr).
      wp_run. post.
  - destruct (Z.eq_dec (get_height l - get_height r) (-2)) as [E'|E'].
    + (* the right subtree is two levels taller *)
      specialize (Gr E'). clear Gl.
      destruct r as [|rv rl rr rh]; [contradiction|].
      cbn [shape grew get_height] in *.
      destruct Hr as (Hrl & Hrr & -> & Hrb).
      pose proof (shape_nonneg _ Hrl). pose proof (shape_nonneg _ Hrr).
      destruct Gr as [[-> ->]|[[Hk Hh]|[Hk Hh]]].
      * cbn [get_height] in *. exfalso; lia.
      * (* RL *)
        destruct rl as [|rlv rll rlr rlh]; [cbn [get_height] in *; lia|].
        cbn [shape get_height] in *.
        destruct Hrl as (Hrll & Hrlr & -> & Hrlb).
        pose proof (shape_nonneg _ Hrll). pose proof (shape_nonneg _ Hrlr).
        wp_run. post.
      * (* RR *) wp_run. post.
    + (* within bounds: no rotation *)
      wp_run. post.
Qed.

End InsertRebalance.

(** ** Rebalancing after a deletion below *)

Section DeleteRebalance.

Variables (c : path) (v : Z) (l r : tree) (h : Z) (s : Trace).
Hypothesis shape_l : shape l.
Hypothesis shape_r : shape r.
Hypothesis off_by_two : -2 <= get_height l - get_height r <= 2.

Lemma delete_rebalance_spec :
  wp (_delete_rebalance c (Node v l r h)) s (fun t' s' =>
      shape t'
      /\ keys t' = keys l ++ v :: keys r
      /\ (-1 <= get_height l - get_height r <= 1 ->
          t' = Node v l r (1 + Z.max (get_height l) (get_height r))
          /\ steps s' = steps s)
      /\ Z.max (get_height l) (get_height r) <= get_height t'
         <= 1 + Z.max (get_height l) (get_height r)
      /\ (forall m, In m (logs s) -> In m (logs s'))
      /\ (exists more, steps s' = steps s ++ more)).
Proof.
  pose proof (shape_nonneg _ shape_l). pose proof (shape_nonneg _ shape_r).
  revert shape_l shape_r off_by_two.
  intros Hl Hr Hb.
  unfold _delete_rebalance.
  destruct (Z.eq_dec (get_height l - get_height r) 2) as [E|E].
  - destruct l as [|lv ll lr lh]; [cbn [get_height] in *; lia|].
    cbn [shape get_height] in *.
    destruct Hl as (Hll & Hlr & -> & Hlb).
    pose proof (shape_nonneg _ Hll). pose proof (shape_nonneg _ Hlr).
    destruct (Z_lt_le_dec (get_height ll - get_height lr) 0) as [Hneg|Hpos].
    + (* LR *)
      destruct lr as [|lrv lrl lrr lrh]; [cbn [get_height] in *; lia|].
      cbn [shape get_height] in *.
      destruct Hlr as (Hlrl & Hlrr & -> & Hlrb).
      pose proof (shape_nonneg _ Hlrl). pose proof (shape_nonneg _ Hlrr).
      wp_run. post.
    + (* LL *) wp_run. post.
  - destruct (Z.eq_dec (get_height l - get_height r) (-2)) as [E'|E'].
    + destruct r as [|rv rl rr rh]; [cbn [get_height] in *; lia|].
      cbn [shape get_height] in *.
      destruct Hr as (Hrl & Hrr & -> & Hrb).
      pose proof (shape_nonneg _ Hrl). pose proof (shape_nonneg _ Hrr).
      destruct (Z_lt_le_dec 0 (get_height rl - get_height rr)) as [Hpos|Hneg].
      * (* RL *)
        destruct rl as [|rlv rll rlr rlh]; [cbn [get_height] in *; lia|].
        cbn [shape get_height] in *.
        destruct Hrl as (Hrll & Hrlr & -> & Hrlb).
        pose proof (shape_nonneg _ Hrll). pose proof (shape_nonneg _ Hrlr).
        wp_run. post.
      * (* RR *) wp_run. post.
    + wp_run. post.
Qed.

End DeleteRebalance.

(** ** Keys in order *)

Lemma increasing_node (a b : list Z) (v : Z) :
  increasing (a ++ v :: b)
  <-> increasing a /\ increasing b
      /\ (forall x, In x a -> x < v) /\ (forall y, In y b -> v < y).
Proof.
  induction a as [|x a IH]; cbn [app increasing].
  - split.
    + intros (Hv & Hb). repeat split; try assumption. intros y [].
    + intros (_ & Hb & _ & Hv). split; assumption.
  - rewrite IH. split.
    + intros (Hx & Ha & Hb & Hav & Hvb). repeat split; try assumption.
      * intros k Hk. apply Hx, in_or_app. left; exact Hk.
      * intros k [<-|Hk]; [|apply Hav, Hk].
        apply Hx, in_or_app. right; left; reflexivity.
    + intros ((Hx & Ha) & Hb & Hav & Hvb). repeat split; try assumption.
      * intros k Hk. apply in_app_or in Hk. destruct Hk as [Hk|[<-|Hk]].
        -- apply Hx, Hk.
        -- apply Hav. left; reflexivity.
        -- specialize (Hvb _ Hk). specialize (Hav x (or_introl eq_refl)). lia.
      * intros k Hk. apply Hav. right; exact Hk.
Qed.

(** ** Insertion preserves the invariants *)

Lemma insert_spec (t : tree) :
  forall c key s, shape t ->
  wp (_insert c t key) s (fun t' s' =>
      shape t'
      /\ (get_height t' = get_height t
          \/ (get_height t' = get_height t + 1 /\ grew t' key))
      /\ (forall x, In x (keys t') <-> x = key \/ In x (keys t))
      /\ (increasing (keys t) -> increasing (keys t'))).
Proof.
  induction t as [|v l IHl r IHr h]; intros c key s Hs.
  - cbn [_insert]. wp_run. cbn [shape keys get_height grew increasing In].
    repeat split; try lia; try tauto.
    + cbn [app In]. intros [<-|[]]. left; reflexivity.
    + cbn [app In]. intros [->|[]]. left; reflexivity.
    + intros k' [].
  - cbn [_insert]. cbn [shape] in Hs. destruct Hs as (Hl & Hr & -> & Hb).
    pose proof (shape_nonneg _ Hl). pose proof (shape_nonneg _ Hr).
    destruct (Z.ltb_spec key v) as [Hlt|Hge].
    + apply wp_bind. eapply wp_mono; [apply (IHl _ key _ Hl)|].
      cbv beta. intros l' s1 (Hl' & Hh & Hk & Hi).
      eapply wp_mono.
      { apply insert_rebalance_spec; try assumption; try lia;
          intros E; destruct Hh as [Hh|[_ Hg]];
          solve [exact Hg | exfalso; lia]. }
      cbv beta. intros t' s2 (Ht' & Hkeys & Hsame & Hrot & _).
      split; [exact Ht'|]. split.
      * cbn [get_height].
        destruct (Z_le_gt_dec (get_height l' - get_height r) 1) as [Hle|Hgt].
        -- destruct Hsame as [-> _]; [lia|]. cbn [get_height grew].
           destruct Hh as [Hh|[Hh Hg]]; [left; lia|].
           destruct (Z_le_gt_dec (get_height l') (get_height r));
             [left; lia|right; split; [lia|right; left; lia]].
        -- left. rewrite Hrot by lia. lia.
      * rewrite Hkeys. cbn [keys]. split.
        -- intros x. rewrite !in_app_iff. cbn [In]. rewrite Hk. tauto.
        -- rewrite !increasing_node. intros (Ha & Hb' & Hav & Hvb).
           repeat split; try assumption; [apply Hi, Ha|].
           intros x Hx. apply Hk in Hx. destruct Hx as [->|Hx];
             [exact Hlt|apply Hav, Hx].
    + destruct (Z.gtb_spec key v) as [Hgt|Hle].
      * apply wp_bind. eapply wp_mono; [apply (IHr _ key _ Hr)|].
        cbv beta. intros r' s1 (Hr' & Hh & Hk & Hi).
        eapply wp_mono.
        { apply insert_rebalance_spec; try assumption; try lia;
            intros E; destruct Hh as [Hh|[_ Hg]];
            solve [exact Hg | exfalso; lia]. }
        cbv beta. intros t' s2 (Ht' & Hkeys & Hsame & Hrot & _).
        split; [exact Ht'|]. split.
        -- cbn [get_height].
           destruct (Z_le_gt_dec (-1) (get_height l - get_height r')) as [Hle|Hgt'].
           ++ destruct Hsame as [-> _]; [lia|]. cbn [get_height grew].
              destruct Hh as [Hh|[Hh Hg]]; [left; lia|].
              destruct (Z_le_gt_dec (get_height r') (get_height l));
                [left; lia|right; split; [lia|right; right; lia]].
           ++ left. rewrite Hrot by lia. lia.
        -- rewrite Hkeys. cbn [keys]. split.
           ++ intros x. rewrite !in_app_iff. cbn [In]. rewrite Hk. tauto.
           ++ rewrite !increasing_node. intros (Ha & Hb' & Hav & Hvb).
              repeat split; try assumption; [apply Hi, Hb'|].
              intros x Hx. apply Hk in Hx. destruct Hx as [->|Hx];
                [exact Hgt|apply Hvb, Hx].
      * assert (key = v) as -> by lia.
        wp_run. cbn [shape keys get_height].
        repeat split; try lia; try assumption; try tauto.
        intros [->|Hx]; [|exact Hx].
        apply in_or_app. right; left; reflexivity.
Qed.

(** ** Deletion preserves the invariants *)

(** The leftmost node carries the first key of the in-order traversal. *)
Lemma min_value_node_keys (r : tree) :
  r <> Nil ->
  exists temp tv rest,
    _min_value_node r = Ok temp /\ attr_value temp = Ok tv
    /\ keys r = tv :: rest.
Proof.
  induction r as [|v l IHl r' _ h]; intros Hne; [contradiction|].
  cbn [_min_value_node keys]. destruct l as [|lv ll lr lh].
  - exists (Node v Nil r' h), v, (keys r'). repeat split.
  - destruct IHl as (temp & tv & rest & Hmin & Hval & Hkeys); [discriminate|].
    exists temp, tv, (rest ++ v :: keys r'). rewrite Hkeys.
    repeat split; assumption.
Qed.

(** The height of a rebalanced node, by cases on the balance it had. *)
Ltac height_after Hsame :=
  cbn [get_height] in *;
  lazymatch type of Hsame with
  | (-1 <= ?b <= 1 -> _) =>
      destruct (Z_le_gt_dec (-1) b);
      [ destruct (Z_le_gt_dec b 1);
        [ destruct Hsame as [-> _]; [lia|]; cbn [get_height]; lia | lia ]
      | lia ]
  end.

Lemma delete_spec (t : tree) :
  forall c key s, shape t ->
  wp (_delete c t key) s (fun t' s' =>
      shape t'
      /\ (get_height t' = get_height t \/ get_height t' = get_height t - 1)
      /\ (forall x, In x (keys t') -> In x (keys t))
      /\ (increasing (keys t) ->
          increasing (keys t') /\ ~ In key (keys t'))).
Proof.
  induction t as [|v l IHl r IHr h]; intros c key s Hs.
  - cbn [_delete]. wp_run. cbn [shape keys get_height increasing In].
    repeat split; try lia; tauto.
  - cbn [_delete]. cbn [shape] in Hs. destruct Hs as (Hl & Hr & -> & Hb).
    pose proof (shape_nonneg _ Hl). pose proof (shape_nonneg _ Hr).
    destruct (Z.ltb_spec key v) as [Hlt|Hge].
    + apply wp_bind. eapply wp_mono; [apply (IHl _ key _ Hl)|].
      cbv beta. intros l' s1 (Hl' & Hh & Hk & Hi).
      eapply wp_mono;
        [apply delete_rebalance_spec; try assumption; lia|].
      cbv beta. intros t' s2 (Ht' & Hkeys & Hsame & Hrot & _).
      split; [exact Ht'|]. split; [height_after Hsame|].
      rewrite Hkeys. cbn [keys]. split.
      * intros x. rewrite !in_app_iff. cbn [In]. intros [Hx|Hx]; [|tauto].
        left. apply Hk, Hx.
      * rewrite !increasing_node. intros (Ha & Hb' & Hav & Hvb).
        destruct (Hi Ha) as [Hi1 Hi2].
        repeat split; try assumption.
        -- intros x Hx. apply Hav, Hk, Hx.
        -- rewrite in_app_iff. cbn [In]. intros [Hx|[Hx|Hx]].
           ++ exact (Hi2 Hx).
           ++ lia.
           ++ specialize (Hvb _ Hx). lia.
    + destruct (Z.gtb_spec key v) as [Hgt|Hle].
      * apply wp_bind. eapply wp_mono; [apply (IHr _ key _ Hr)|].
        cbv beta. intros r' s1 (Hr' & Hh & Hk & Hi).
        eapply wp_mono;
          [apply delete_rebalance_spec; try assumption; lia|].
        cbv beta. intros t' s2 (Ht' & Hkeys & Hsame & Hrot & _).
        split; [exact Ht'|]. split; [height_after Hsame|].
        rewrite Hkeys. cbn [keys]. split.
        -- intros x. rewrite !in_app_iff. cbn [In]. intros [Hx|[Hx|Hx]]; try tauto.
           right; right. apply Hk, Hx.
        -- rewrite !increasing_node. intros (Ha & Hb' & Hav & Hvb).
           destruct (Hi Hb') as [Hi1 Hi2].
           repeat split; try assumption.
           ++ intros x Hx. apply Hvb, Hk, Hx.
           ++ rewrite in_app_iff. cbn [In]. intros [Hx|[Hx|Hx]].
              ** specialize (Hav _ Hx). lia.
              ** lia.
              ** exact (Hi2 Hx).
      * assert (key = v) as -> by lia. clear Hge Hle.
        apply wp_bind, wp_log. apply wp_bind, wp_record.
        destruct l as [|lv ll lr lh].
        { (* no left child *)
          wp_run. cbn [keys app get_height] in *.
          split; [exact Hr|]. split; [lia|]. split.
          - intros x Hx. right; exact Hx.
          - intros (Hv & Hi). split; [exact Hi|].
            intros Hx. specialize (Hv _ Hx). lia. }
        destruct r as [|rv rl rr rh].
        { (* no right child *)
          wp_run. cbn [get_height] in *.
          split; [exact Hl|]. split; [lia|]. split.
          - intros x Hx. cbn [keys]. apply in_or_app. left; exact Hx.
          - change (keys (Node v (Node lv ll lr lh) Nil _))
              with (keys (Node lv ll lr lh) ++ v :: []).
            rewrite increasing_node. intros (Hi & _ & Hv & _).
            split; [exact Hi|]. intros Hx. specialize (Hv _ Hx). lia. }
        (* two children *)
        destruct (min_value_node_keys (Node rv rl rr rh))
          as (temp & tv & rest & Hmin & Hval & Hkeys); [discriminate|].
        rewrite Hmin. apply wp_bind, wp_lift. rewrite Hval.
        apply wp_bind, wp_lift. apply wp_bind, wp_log.
        apply wp_bind. eapply wp_mono; [apply (IHr _ tv _ Hr)|].
        cbv beta. intros r' s1 (Hr' & Hh & Hk & Hi).
        eapply wp_mono;
          [apply delete_rebalance_spec; try assumption; lia|].
        cbv beta. intros t' s2 (Ht' & Hkeys' & Hsame & Hrot & _).
        split; [exact Ht'|]. split;
          [height_after Hsame|].
        rewrite Hkeys'.
        change (keys (Node v (Node lv ll lr lh) (Node rv rl rr rh) _))
          with (keys (Node lv ll lr lh) ++ v :: keys (Node rv rl rr rh)).
        split.
        -- intros x. rewrite !in_app_iff. cbn [In]. intros [Hx|[<-|Hx]].
           ++ left; exact Hx.
           ++ right; right. rewrite Hkeys. left; reflexivity.
           ++ right; right. apply Hk, Hx.
        -- rewrite !increasing_node. intros (Ha & Hb' & Hav & Hvb).
           destruct (Hi Hb') as [Hi1 Hi2].
           assert (Htv : v < tv).
           { apply Hvb. rewrite Hkeys. left; reflexivity. }
           rewrite Hkeys in Hb'. cbn [increasing] in Hb'.
           destruct Hb' as [Hrest _].
           assert (Hgt : forall x, In x (keys r') -> tv < x).
           { intros x Hx. pose proof (Hk _ Hx) as Hx'.
             rewrite Hkeys in Hx'. destruct Hx' as [<-|Hx'];
               [contradiction|apply Hrest, Hx']. }
           repeat split; try assumption.
           ++ intros x Hx. specialize (Hav _ Hx). lia.
           ++ rewrite in_app_iff. cbn [In]. intros [Hx|[Hx|Hx]].
              ** specialize (Hav _ Hx). lia.
              ** lia.
              ** specialize (Hgt _ Hx). lia.
Qed.

(** ** The public operations on a tree satisfying the invariants *)

Lemma increasing_bst (t : tree) : increasing (keys t) <-> all_nodes bst_ok t.
Proof.
  induction t as [|v l IHl r IHr h]; cbn [keys increasing all_nodes bst_ok];
    [tauto|].
  rewrite increasing_node, IHl, IHr. tauto.
Qed.

Lemma avl_inv_shape (t : tree) :
  avl_inv t <-> shape t /\ increasing (keys t).
Proof. unfold avl_inv. rewrite shape_all_nodes, increasing_bst. tauto. Qed.

Lemma insert_inv (self : AVLTree) (key : Z) :
  avl_inv (root self) ->
  exists self' out,
    insert self key = Ok (self', out)
    /\ avl_inv (root self')
    /\ (forall x, In x (keys (root self')) <-> x = key \/ In x (keys (root self))).
Proof.
  rewrite avl_inv_shape. intros [Hs Hi]. unfold insert. cbn [root].
  pose proof (insert_spec (root self) [] key
                {| logs := ["Insert " ^^ str key]; steps := [] |} Hs) as H.
  apply wp_exists in H. destruct H as (t' & s' & -> & Ht' & _ & Hk & Hi').
  cbn [rbind fst snd]. eexists _, _. split; [reflexivity|].
  cbn [root]. rewrite avl_inv_shape. auto.
Qed.

Lemma delete_inv (self : AVLTree) (key : Z) :
  avl_inv (root self) ->
  exists self' out,
    delete self key = Ok (self', out)
    /\ avl_inv (root self')
    /\ ~ In key (keys (root self'))
    /\ (forall x, In x (keys (root self')) -> In x (keys (root self))).
Proof.
  rewrite avl_inv_shape. intros [Hs Hi]. unfold delete. cbn [root].
  pose proof (delete_spec (root self) [] key
                {| logs := ["Delete " ^^ str key]; steps := [] |} Hs) as H.
  apply wp_exists in H. destruct H as (t' & s' & -> & Ht' & _ & Hk & Hi').
  cbn [rbind fst snd]. eexists _, _. split; [reflexivity|].
  cbn [root]. rewrite avl_inv_shape. destruct (Hi' Hi). auto.
Qed.

Lemma run_inv (ops : list op) :
  forall self, avl_inv (root self) ->
  exists self', run self ops = Ok self' /\ avl_inv (root self').
Proof.
  induction ops as [|o ops IH]; intros self Hinv; cbn [run].
  - exists self. split; [reflexivity|exact Hinv].
  - destruct o as [k|k]; cbn [apply_op].
    + destruct (insert_inv self k Hinv) as (self1 & out & -> & Hinv1 & _).
      cbn [rbind fst]. apply IH, Hinv1.
    + destruct (delete_inv self k Hinv) as (self1 & out & -> & Hinv1 & _).
      cbn [rbind fst]. apply IH, Hinv1.
Qed.

Lemma init_inv : avl_inv (root AVLTree_init).
Proof. cbn. repeat split. Qed.

(** C1.  Whatever sequence of [insert] and [delete] calls is made on a new
    tree, every call returns, and in the tree it leaves every node has a
    balance factor [get_height left - get_height right] between -1 and 1. *)
Theorem balance_after_any_calls (ops : list op) :
  exists self,
    run AVLTree_init ops = Ok self /\ all_nodes balance_ok (root self).
Proof.
  destruct (run_inv ops AVLTree_init init_inv) as (self & Hrun & _ & Hb & _).
  exists self. split; assumption.
Qed.

(** C2.  Whatever sequence of [insert] and [delete] calls is made on a new
    tree, in the tree it leaves every node's key is above all keys of its left
    subtree and below all keys of its right subtree, and the in-order
    traversal is strictly increasing; the two statements are equivalent on
    every tree. *)
Theorem bst_order_after_any_calls (ops : list op) :
  (exists self,
     run AVLTree_init ops = Ok self
     /\ all_nodes bst_ok (root self)
     /\ increasing (keys (root self)))
  /\ (forall t, all_nodes bst_ok t <-> increasing (keys t)).
Proof.
  split.
  - destruct (run_inv ops AVLTree_init init_inv) as (self & Hrun & _ & _ & Hb).
    exists self. repeat split; try assumption. apply increasing_bst, Hb.
  - intros t. symmetry. apply increasing_bst.
Qed.

(** C3.  Whatever sequence of [insert] and [delete] calls is made on a new
    tree, in the tree it leaves the cached height of every node is one more
    than the larger of its children's heights, where [get_height] of an absent
    child is 0; a leaf therefore has height 1. *)
Theorem height_cache_after_any_calls (ops : list op) :
  (exists self,
     run AVLTree_init ops = Ok self
     /\ all_nodes
          (fun node =>
             exists v l r h,
               node = Node v l r h
               /\ get_height node = 1 + Z.max (get_height l) (get_height r))
          (root self))
  /\ get_height Nil = 0
  /\ (forall v, height_ok (Node v Nil Nil 1)).
Proof.
  split; [|split; [reflexivity|intros v; reflexivity]].
  destruct (run_inv ops AVLTree_init init_inv) as (self & Hrun & Hh & _).
  exists self. split; [exact Hrun|].
  clear Hrun. induction (root self) as [|v l IHl r IHr h]; [exact I|].
  cbn [all_nodes height_ok] in *. destruct Hh as (Hh & Hl & Hr).
  split; [|split; [apply IHl, Hl|apply IHr, Hr]].
  exists v, l, r, h. split; [reflexivity|exact Hh].
Qed.

(** ** No-op calls *)

Lemma insert_present (t : tree) :
  forall c key s,
  shape t -> increasing (keys t) -> In key (keys t) ->
  wp (_insert c t key) s (fun t' s' =>
      t' = t /\ steps s' = steps s /\ In (ignored_line key) (logs s')).
Proof.
  induction t as [|v l IHl r IHr h]; intros c key s Hs Hi Hin; [destruct Hin|].
  cbn [_insert]. cbn [shape keys] in *. destruct Hs as (Hl & Hr & -> & Hb).
  apply increasing_node in Hi. destruct Hi as (Hil & Hir & Hlv & Hvr).
  apply in_app_or in Hin.
  destruct (Z.ltb_spec key v) as [Hlt|Hge].
  - assert (Hkl : In key (keys l)).
    { destruct Hin as [Hin|[->|Hin]]; [exact Hin|lia|].
      specialize (Hvr _ Hin). lia. }
    apply wp_bind. eapply wp_mono; [apply (IHl _ key _ Hl Hil Hkl)|].
    cbv beta. intros l' s1 (-> & Hst & Hlog).
    eapply wp_mono;
      [apply insert_rebalance_spec; try assumption; try lia|].
    cbv beta. intros t' s2 (_ & _ & Hsame & _ & Hmono & _).
    destruct Hsame as [-> Hst2]; [lia|].
    repeat split; [congruence|apply Hmono, Hlog].
  - destruct (Z.gtb_spec key v) as [Hgt|Hle].
    + assert (Hkr : In key (keys r)).
      { destruct Hin as [Hin|[->|Hin]]; [|lia|exact Hin].
        specialize (Hlv _ Hin). lia. }
      apply wp_bind. eapply wp_mono; [apply (IHr _ key _ Hr Hir Hkr)|].
      cbv beta. intros r' s1 (-> & Hst & Hlog).
      eapply wp_mono;
        [apply insert_rebalance_spec; try assumption; try lia|].
      cbv beta. intros t' s2 (_ & _ & Hsame & _ & Hmono & _).
      destruct Hsame as [-> Hst2]; [lia|].
      repeat split; [congruence|apply Hmono, Hlog].
    + wp_run. cbn [logs steps]. repeat split.
      apply in_or_app. right; left; reflexivity.
Qed.

Lemma delete_absent (t : tree) :
  forall c key s,
  shape t -> ~ In key (keys t) ->
  wp (_delete c t key) s (fun t' s' =>
      t' = t /\ steps s' = steps s /\ In (not_found_line key) (logs s')).
Proof.
  induction t as [|v l IHl r IHr h]; intros c key s Hs Hin.
  - cbn [_delete]. wp_run. cbn [logs steps]. repeat split.
    apply in_or_app. right; left; reflexivity.
  - cbn [_delete]. cbn [shape keys] in *. destruct Hs as (Hl & Hr & -> & Hb).
    rewrite in_app_iff in Hin. cbn [In] in Hin.
    destruct (Z.ltb_spec key v) as [Hlt|Hge].
    + apply wp_bind. eapply wp_mono; [apply (IHl _ key _ Hl); tauto|].
      cbv beta. intros l' s1 (-> & Hst & Hlog).
      eapply wp_mono;
        [apply delete_rebalance_spec; try assumption; try lia|].
      cbv beta. intros t' s2 (_ & _ & Hsame & _ & Hmono & _).
      destruct Hsame as [-> Hst2]; [lia|].
      repeat split; [congruence|apply Hmono, Hlog].
    + destruct (Z.gtb_spec key v) as [Hgt|Hle].
      * apply wp_bind. eapply wp_mono; [apply (IHr _ key _ Hr); tauto|].
        cbv beta. intros r' s1 (-> & Hst & Hlog).
        eapply wp_mono;
          [apply delete_rebalance_spec; try assumption; try lia|].
        cbv beta. intros t' s2 (_ & _ & Hsame & _ & Hmono & _).
        destruct Hsame as [-> Hst2]; [lia|].
        repeat split; [congruence|apply Hmono, Hlog].
      * exfalso. apply Hin. right; left. lia.
Qed.

(** C6.  On a tree satisfying the invariants, [insert] of a key that is
    already present returns the same tree (same nodes, same cached heights),
    records no step, and logs that the key was ignored; and for any key,
    inserting it a second time leaves the tree the first insertion built. *)
Theorem insert_duplicate_ignored (self : AVLTree) (key : Z) :
  avl_inv (root self) ->
  (In key (keys (root self)) ->
   exists out,
     insert self key
     = Ok ({| root := root self;
              last_action := Some ("Insert " ^^ str key) |}, out)
     /\ steps out = []
     /\ In (ignored_line key) (logs out))
  /\ (exists once out1 twice out2,
        insert self key = Ok (once, out1)
        /\ insert once key = Ok (twice, out2)
        /\ root twice = root once
        /\ steps out2 = []).
Proof.
  intros Hinv.
  assert (Hpresent : forall self0, avl_inv (root self0) ->
            In key (keys (root self0)) ->
            exists out,
              insert self0 key
              = Ok ({| root := root self0;
                       last_action := Some ("Insert " ^^ str key) |}, out)
              /\ steps out = []
              /\ In (ignored_line key) (logs out)).
  { intros self0 Hinv0 Hin. apply avl_inv_shape in Hinv0.
    destruct Hinv0 as [Hs Hi]. unfold insert. cbn [root].
    pose proof (insert_present (root self0) [] key
                  {| logs := ["Insert " ^^ str key]; steps := [] |} Hs Hi Hin)
      as H.
    apply wp_exists in H. destruct H as (t' & s' & -> & -> & Hst & Hlog).
    cbn [rbind fst snd last_action]. exists s'. repeat split; assumption. }
  split; [apply Hpresent, Hinv|].
  destruct (insert_inv self key Hinv) as (once & out1 & Hrun1 & Hinv1 & Hkeys).
  destruct (Hpresent once Hinv1) as (out2 & Hrun2 & Hst & _).
  { apply Hkeys. left; reflexivity. }
  exists once, out1,
    {| root := root once; last_action := Some ("Insert " ^^ str key) |}, out2.
  repeat split; assumption.
Qed.

(** C7.  On a tree satisfying the invariants (the empty tree included),
    [delete] of a key that is not in the tree returns without an exception,
    leaves the same tree and the same number of nodes, records no step, and
    logs that the key was not found. *)
Theorem delete_absent_ignored (self : AVLTree) (key : Z) :
  avl_inv (root self) -> ~ In key (keys (root self)) ->
  exists self' out,
    delete self key = Ok (self', out)
    /\ root self' = root self
    /\ count_nodes self' = count_nodes self
    /\ steps out = []
    /\ In (not_found_line key) (logs out).
Proof.
  intros Hinv Hin. apply avl_inv_shape in Hinv. destruct Hinv as [Hs _].
  unfold delete. cbn [root].
  pose proof (delete_absent (root self) [] key
                {| logs := ["Delete " ^^ str key]; steps := [] |} Hs Hin) as H.
  apply wp_exists in H. destruct H as (t' & s' & -> & -> & Hst & Hlog).
  cbn [rbind fst snd]. eexists _, s'. split; [reflexivity|].
  repeat split; assumption.
Qed.

(** ** The deletion dispatch *)

Section RunEquations.

Context {A : Type}.

Lemma bind_log (msg : string) (f : unit -> M A) (s : Trace) :
  bind (log msg) f s = f tt {| logs := logs s ++ [msg]; steps := steps s |}.
Proof. reflexivity. Qed.

Lemma bind_record (reachable : tree) (d : string) (node : tree)
    (f : unit -> M A) (s : Trace) :
  bind (record reachable d node) f s
  = f tt {| logs := logs s;
            steps := steps s ++ [{| desc := d; graph := render reachable |}] |}.
Proof. unfold bind at 1. rewrite record_run. reflexivity. Qed.

Lemma bind_lift_ok {B : Type} (b : B) (f : B -> M A) (s : Trace) :
  bind (lift (Ok b)) f s = f b s.
Proof. reflexivity. Qed.

Lemma bind_lift_error {B : Type} (f : B -> M A) (s : Trace) :
  bind (lift AttributeError) f s = AttributeError.
Proof. reflexivity. Qed.

End RunEquations.

Ltac run_step :=
  first
    [ rewrite bind_log
    | rewrite bind_record
    | rewrite bind_lift_ok
    | rewrite bind_lift_error
    | progress cbn [rbind attr_value attr_left attr_right
                    attr_height set_left set_right set_height update_height
                    right_rotate left_rotate andb get_height get_balance
                    spec_rotate logs steps case_line ret] ].

Ltac decide_cmp :=
  match goal with
  | |- context [?a >? ?b] => destruct (Z.gtb_spec a b)
  | |- context [?a <? ?b] => destruct (Z.ltb_spec a b)
  | |- context [?a >=? ?b] => destruct (Z.geb_spec a b)
  | |- context [?a <=? ?b] => destruct (Z.leb_spec a b)
  end; try (exfalso; lia).

Ltac run_all := repeat (run_step || decide_cmp).

Ltac found_steps :=
  rewrite <- ?app_assoc; cbn [app]; eexists; reflexivity.


(** Every ancestor of the deleted position is rebalanced on the way back:
    below a node whose key differs, [_delete] is the recursive call followed
    by [_delete_rebalance] on the node with the child replaced. *)
Lemma delete_unwinds_left (c : path) (v : Z) (l r : tree) (h key : Z) :
  key < v ->
  _delete c (Node v l r h) key
  = bind (_delete (InLeft v r h :: c) l key)
      (fun l' => _delete_rebalance c (Node v l' r h)).
Proof.
  intros Hlt. cbn [_delete]. destruct (Z.ltb_spec key v); [reflexivity|lia].
Qed.

Lemma delete_unwinds_right (c : path) (v : Z) (l r : tree) (h key : Z) :
  v < key ->
  _delete c (Node v l r h) key
  = bind (_delete (InRight v l h :: c) r key)
      (fun r' => _delete_rebalance c (Node v l r' h)).
Proof.
  intros Hgt. cbn [_delete]. destruct (Z.ltb_spec key v); [lia|].
  destruct (Z.gtb_spec key v); [reflexivity|lia].
Qed.

(** The rebalancing code on a present node: when the deletion rules select
    case [k], it returns the rotation of that case applied to the node with
    its height refreshed, and the log names the case. *)
Lemma delete_rebalance_dispatch
    (c : path) (v : Z) (l r : tree) (h : Z) (s : Trace) (k : rotation_case) :
  let node := Node v l r (1 + Z.max (get_height l) (get_height r)) in
  spec_delete_case (get_balance node) (get_balance l) (get_balance r) k ->
  dispatched k node v s (_delete_rebalance c (Node v l r h) s).
Proof.
  cbv zeta. unfold dispatched, _delete_rebalance, at_node_line.
  cbn [get_balance get_height]. intros Hcase.
  destruct k; cbn [spec_delete_case] in Hcase; destruct Hcase as [Hb Hc].
  - destruct l as [|lv ll lr lh]; cbn [get_height get_balance] in *;
      run_all; try found_steps; reflexivity.
  - destruct l as [|lv ll [|lrv lrl lrr lrh] lh];
      cbn [get_height get_balance] in *; run_all; try found_steps; reflexivity.
  - destruct r as [|rv rl rr rh]; cbn [get_height get_balance] in *;
      run_all; try found_steps; reflexivity.
  - destruct r as [|rv [|rlv rll rlr rlh] rr rh];
      cbn [get_height get_balance] in *; run_all; try found_steps; reflexivity.
Qed.

(** With the balance within bounds the node is returned as it is, its height
    refreshed, and nothing is recorded. *)
Lemma delete_no_rotation (c : path) (v : Z) (l r : tree) (h : Z) (s : Trace) :
  let node := Node v l r (1 + Z.max (get_height l) (get_height r)) in
  -1 <= get_balance node <= 1 ->
  _delete_rebalance c (Node v l r h) s
  = Ok (node,
        {| logs := logs s
                   ++ [at_node_line v (get_height node) (get_balance node)];
           steps := steps s |}).
Proof.
  cbv zeta. unfold _delete_rebalance, at_node_line.
  cbn [get_balance get_height]. intros Hb. run_all; reflexivity.
Qed.

(** However [_delete] reaches its rebalancing code at a node, what it
    returns is what that code returns on the node as it stands then. *)
Lemma delete_reaches_rebalance (c : path) (node : tree) (key : Z)
    (s : Trace) (node1 : tree) (s1 : Trace) :
  unwinds_to c node key s node1 s1 ->
  _delete c node key s = _delete_rebalance c node1 s1.
Proof.
  intros [v l r h k s0 l' s2 Hlt Hrec
         |v l r h k s0 r' s2 Hgt Hrec
         |v l r h s0 st temp tv r' s2 Hl Hr Hsnap Hmin Hval Hrec].
  - rewrite delete_unwinds_left by exact Hlt.
    unfold bind at 1. rewrite Hrec. reflexivity.
  - rewrite delete_unwinds_right by exact Hgt.
    unfold bind at 1. rewrite Hrec. reflexivity.
  - cbn [_delete].
    destruct (Z.ltb_spec v v); [lia|]. destruct (Z.gtb_spec v v); [lia|].
    assert (Hst : st = {| desc := "Deleting " ^^ str v;
                          graph := render (self_root c (Node v l r h)) |})
      by (rewrite snapshot_total in Hsnap; congruence).
    subst st. rewrite bind_log, bind_record.
    destruct l as [|lv ll lr lh]; [contradiction|].
    destruct r as [|rv rl rr rh]; [contradiction|].
    rewrite Hmin, bind_lift_ok, Hval, bind_lift_ok, bind_log.
    unfold bind at 1.
    match type of Hrec with
    | ?lhs = _ =>
        match goal with
        | |- match ?x with Ok _ => _ | AttributeError => _ end = _ =>
            change x with lhs
        end
    end.
    rewrite Hrec. reflexivity.
Qed.

(** C8.  In every call of [_delete], at every present node the recursion
    passes on its way back (below the key on the left, on the right, or at
    the node whose key was replaced by its successor), the rebalancing case is
    the one the deletion rules give from the node's balance and the sign of
    its child's balance: [_delete] returns the rotation of that case applied
    to the node with its height refreshed (LL: one right rotation; RR: one
    left rotation; LR and RL: the child first), and logs the case. *)
Theorem delete_dispatch_by_child_balance
    (c : path) (node : tree) (key : Z) (s : Trace)
    (v : Z) (l r : tree) (h : Z) (s1 : Trace) (k : rotation_case) :
  let refreshed := Node v l r (1 + Z.max (get_height l) (get_height r)) in
  unwinds_to c node key s (Node v l r h) s1 ->
  spec_delete_case (get_balance refreshed) (get_balance l) (get_balance r) k ->
  dispatched k refreshed v s1 (_delete c node key s).
Proof.
  cbv zeta. intros Hunwind Hcase.
  rewrite (delete_reaches_rebalance _ _ _ _ _ _ Hunwind).
  apply delete_rebalance_dispatch, Hcase.
Qed.


(** ** Calls never raise *)

Lemma min_value_node_present (node : tree) :
  _min_value_node node = AttributeError <-> node = Nil.
Proof.
  split; [|intros ->; reflexivity].
  induction node as [|v l IHl r _ h]; [reflexivity|].
  cbn [_min_value_node]. destruct l as [|lv ll lr lh]; [discriminate|].
  intros H. specialize (IHl H). discriminate IHl.
Qed.

Lemma height_ok_nonneg (t : tree) : all_nodes height_ok t -> 0 <= get_height t.
Proof.
  induction t as [|v l IHl r IHr h]; cbn [all_nodes height_ok get_height];
    [lia|].
  intros (-> & Hl & Hr). specialize (IHl Hl). lia.
Qed.

(** C10.  No call dereferences an absent child: every sequence of calls on a
    new tree returns, and so does every call on a tree satisfying the
    invariants; with the height cache right below a node, a balance above 1
    means the left child is present and a balance below -1 that the right
    child is; and the only ways the rotations and [_min_value_node] raise are
    a missing left child, a missing right child, and an absent node. *)
Theorem no_absent_child_dereferenced :
  (forall ops, exists self, run AVLTree_init ops = Ok self)
  /\ (forall self o,
        avl_inv (root self) -> exists out, apply_op self o = Ok out)
  /\ (forall v l r h,
        all_nodes height_ok l -> all_nodes height_ok r ->
        (get_balance (Node v l r h) > 1 -> l <> Nil)
        /\ (get_balance (Node v l r h) < -1 -> r <> Nil))
  /\ (forall y,
        right_rotate y = AttributeError
        <-> attr_left y = AttributeError \/ attr_left y = Ok Nil)
  /\ (forall x,
        left_rotate x = AttributeError
        <-> attr_right x = AttributeError \/ attr_right x = Ok Nil)
  /\ (forall node, _min_value_node node = AttributeError <-> node = Nil).
Proof.
  split; [|split; [|split; [|split; [|split]]]].
  - intros ops.
    destruct (run_inv ops AVLTree_init init_inv) as (self & Hrun & _).
    exists self. exact Hrun.
  - intros self [key|key] Hinv; cbn [apply_op].
    + destruct (insert_inv self key Hinv) as (self' & out & -> & _).
      eexists. reflexivity.
    + destruct (delete_inv self key Hinv) as (self' & out & -> & _).
      eexists. reflexivity.
  - intros v l r h Hl Hr. cbn [get_balance].
    pose proof (height_ok_nonneg _ Hl). pose proof (height_ok_nonneg _ Hr).
    split; intros Hb ->; cbn [get_height] in *; lia.
  - intros [|yv [|xv xl xr xh] yr yh]; cbn; split; intros H;
      try discriminate; try (destruct H; discriminate); auto.
  - intros [|xv xl [|yv yl yr yh] xh]; cbn; split; intros H;
      try discriminate; try (destruct H; discriminate); auto.
  - apply min_value_node_present.
Qed.

(** ** The recorded steps *)

Lemma wp_conj {A : Type} (m : M A) (s : Trace) (P Q : A -> Trace -> Prop) :
  wp m s P -> wp m s Q -> wp m s (fun a s' => P a s' /\ Q a s').
Proof.
  unfold wp. destruct (m s) as [[a s']|]; [|contradiction].
  intros HP HQ. split; assumption.
Qed.

Lemma insert_first_step (t : tree) :
  forall c key s,
  shape t -> ~ In key (keys t) ->
  wp (_insert c t key) s (fun t' s' =>
      exists more,
        steps s'
        = steps s
          ++ {| desc := "Inserted " ^^ str key;
                graph := render (self_root c t) |} :: more).
Proof.
  induction t as [|v l IHl r IHr h]; intros c key s Hs Hin.
  - cbn [_insert]. wp_run. cbn [steps]. exists []. reflexivity.
  - cbn [_insert]. cbn [shape keys] in *. destruct Hs as (Hl & Hr & -> & Hb).
    rewrite in_app_iff in Hin. cbn [In] in Hin.
    destruct (Z.ltb_spec key v) as [Hlt|Hge].
    + apply wp_bind.
      eapply wp_mono;
        [apply (wp_conj _ _ _ _ (insert_spec l (InLeft v r _ :: c) key s Hl)
                  (IHl (InLeft v r _ :: c) key s Hl (fun H => Hin (or_introl H))))|].
      cbv beta. intros l' s1 ((Hl' & Hh & _) & more & Hst).
      eapply wp_mono.
      { apply insert_rebalance_spec; try assumption; try lia;
          intros E; destruct Hh as [Hh|[_ Hg]];
          solve [exact Hg | exfalso; lia]. }
      cbv beta. intros t' s2 (_ & _ & _ & _ & _ & more' & Hst').
      exists (more ++ more'). rewrite Hst', Hst. cbn [self_root].
      rewrite <- app_assoc. reflexivity.
    + destruct (Z.gtb_spec key v) as [Hgt|Hle].
      * apply wp_bind.
        eapply wp_mono;
          [apply (wp_conj _ _ _ _ (insert_spec r (InRight v l _ :: c) key s Hr)
                    (IHr (InRight v l _ :: c) key s Hr
                       (fun H => Hin (or_intror (or_intror H)))))|].
        cbv beta. intros r' s1 ((Hr' & Hh & _) & more & Hst).
        eapply wp_mono.
        { apply insert_rebalance_spec; try assumption; try lia;
            intros E; destruct Hh as [Hh|[_ Hg]];
            solve [exact Hg | exfalso; lia]. }
        cbv beta. intros t' s2 (_ & _ & _ & _ & _ & more' & Hst').
        exists (more ++ more'). rewrite Hst', Hst. cbn [self_root].
        rewrite <- app_assoc. reflexivity.
      * exfalso. apply Hin. right; left. lia.
Qed.

(** The step tagged with a newly inserted key renders the tree as it was
    before the call, in which the key is absent. *)
Lemma inserted_step_renders_old_tree (self : AVLTree) (key : Z) :
  avl_inv (root self) -> ~ In key (keys (root self)) ->
  exists self' out g more,
    insert self key = Ok (self', out)
    /\ In key (keys (root self'))
    /\ tree_to_graphviz (root self) None = Ok g
    /\ steps out = {| desc := "Inserted " ^^ str key; graph := g |} :: more.
Proof.
  intros Hinv Hin. pose proof Hinv as Hinv'.
  apply avl_inv_shape in Hinv'. destruct Hinv' as [Hs _].
  destruct (insert_inv self key Hinv) as (self' & out & Hrun & _ & Hkeys).
  pose proof (insert_first_step (root self) [] key
                {| logs := ["Insert " ^^ str key]; steps := [] |} Hs Hin) as H.
  apply wp_exists in H. destruct H as (t' & s' & Hrun' & more & Hst).
  unfold insert in Hrun. cbn [root] in Hrun. rewrite Hrun' in Hrun.
  cbn [rbind fst snd] in Hrun. injection Hrun as <- <-.
  unfold insert. cbn [root]. rewrite Hrun'. cbn [rbind fst snd].
  eexists _, _, (render (root self)), more. split; [reflexivity|].
  split; [apply Hkeys; left; reflexivity|].
  split; [apply tree_to_graphviz_total|exact Hst].
Qed.


(** C4, the code at the failing inputs.  [insert(10)] on a new tree records
    one step, "Inserted 10", whose graph is the rendering of the empty tree,
    while the tree holds 10.  The third of [insert(10)], [insert(20)],
    [insert(30)] records "After Left Rotation at 20" with the rendering of the
    single node 10, while the tree holds 10, 20 and 30. *)
Theorem snapshot_misses_the_change :
  (exists self out,
     insert AVLTree_init 10 = Ok (self, out)
     /\ keys (root self) = [10]
     /\ steps out = [{| desc := "Inserted 10";
                        graph := [DotNodeShapeCircle; DotEmpty] |}]
     /\ tree_to_graphviz Nil None = Ok [DotNodeShapeCircle; DotEmpty])
  /\ (exists self out after,
        run AVLTree_init [Insert 10; Insert 20] = Ok self
        /\ insert self 30 = Ok out
        /\ keys (root (fst out)) = [10; 20; 30]
        /\ nth_error (steps (snd out)) 2
           = Some {| desc := "After Left Rotation at 20"; graph := after |}
        /\ tree_to_graphviz (Node 10 Nil Nil 1) None = Ok after).
Proof.
  split.
  - eexists _, _. split; [vm_compute; reflexivity|]. repeat split.
  - eexists _, _, _. split; [vm_compute; reflexivity|].
    split; [vm_compute; reflexivity|]. repeat split.
Qed.

(** ** The scenario 10, 20, 30 *)

(** C9, the claim as stated fails: the third insertion does not log an RR case
    at node 20. *)
Lemma rr_case_not_at_key_20 :
  exists self out,
    run AVLTree_init [Insert 10; Insert 20] = Ok self
    /\ insert self 30 = Ok out
    /\ ~ In (case_line RR 20) (logs (snd out)).
Proof.
  eexists _, _. split; [vm_compute; reflexivity|].
  split; [vm_compute; reflexivity|].
  vm_compute. intros H. 
  repeat (destruct H as [H|H]; [discriminate H|]). exact H.
Qed.


(** C9, amended.  Inserting 10, 20, 30 into a new tree triggers the RR case at
    the node with key 10: one left rotation of that node, after which 20 is
    the root with the leaves 10 and 30, of height 1, below it and height 2. *)
Theorem insert_10_20_30 :
  exists self out,
    run AVLTree_init [Insert 10; Insert 20] = Ok self
    /\ root self = Node 10 Nil (Node 20 Nil Nil 1) 2
    /\ insert self 30 = Ok out
    /\ logs (snd out)
       = ["Insert 30"; "Created node 30"; at_node_line 20 2 (-1);
          at_node_line 10 3 (-2); case_line RR 10]%string
    /\ left_rotate (Node 10 Nil (Node 20 Nil (Node 30 Nil Nil 1) 2) 3)
       = Ok (root (fst out))
    /\ root (fst out) = Node 20 (Node 10 Nil Nil 1) (Node 30 Nil Nil 1) 2
    /\ map desc (steps (snd out))
       = ["Inserted 30"; "RR case before rotation at 10";
          "After Left Rotation at 20"]%string.
Proof.
  eexists _, _. split; [vm_compute; reflexivity|].
  split; [reflexivity|].
  split; [vm_compute; reflexivity|].
  repeat split.
Qed.


(** ** Further scenarios *)

(** Inserting 30, 10, 20 takes the LR case at 30 and leaves 20 at the root. *)
Example insert_30_10_20 :
  exists self out,
    run AVLTree_init [Insert 30; Insert 10] = Ok self
    /\ insert self 20 = Ok out
    /\ In (case_line LR 30) (logs (snd out))
    /\ root (fst out) = Node 20 (Node 10 Nil Nil 1) (Node 30 Nil Nil 1) 2.
Proof.
  eexists _, _. split; [vm_compute; reflexivity|].
  split; [vm_compute; reflexivity|].
  split; [cbn [snd logs In]; tauto|reflexivity].
Qed.

(** Deleting 30 from the tree built from 10, 20, 30, 40, 50, 25 pulls the
    successor 40 into its place. *)
Example delete_30_of_six :
  exists self out,
    run AVLTree_init
      [Insert 10; Insert 20; Insert 30; Insert 40; Insert 50; Insert 25]
    = Ok self
    /\ root self
       = Node 30 (Node 20 (Node 10 Nil Nil 1) (Node 25 Nil Nil 1) 2)
           (Node 40 Nil (Node 50 Nil Nil 1) 2) 3
    /\ delete self 30 = Ok out
    /\ keys (root (fst out)) = [10; 20; 25; 40; 50]
    /\ In "In-order successor is 40"%string (logs (snd out)).
Proof.
  eexists _, _. split; [vm_compute; reflexivity|].
  split; [reflexivity|].
  split; [vm_compute; reflexivity|].
  split; [reflexivity|cbn [snd logs In]; tauto].
Qed.

(** ** The theorems at concrete inputs *)

Ltac solve_inv :=
  unfold avl_inv, example_tree; cbn [root all_nodes];
  unfold balance_ok, height_ok, bst_ok;
  cbn [get_balance get_height keys app In];
  repeat split; try lia; intros;
  repeat match goal with
         | H : _ \/ _ |- _ => destruct H
         | H : False |- _ => destruct H
         end; lia.

(** [insert(20)] on the tree holding 10, 20, 30. *)
Lemma insert_duplicate_ignored_witness :
  avl_inv (root example_tree)
  /\ In 20 (keys (root example_tree))
  /\ exists out,
       insert example_tree 20
       = Ok ({| root := root example_tree;
                last_action := Some ("Insert " ^^ str 20) |}, out)
       /\ steps out = []
       /\ In (ignored_line 20) (logs out).
Proof.
  assert (Hinv : avl_inv (root example_tree)) by solve_inv.
  assert (Hin : In 20 (keys (root example_tree))) by (simpl; lia).
  split; [exact Hinv|]. split; [exact Hin|].
  exact (proj1 (insert_duplicate_ignored example_tree 20 Hinv) Hin).
Defined.

(** [delete(25)] on the tree holding 10, 20, 30. *)
Lemma delete_absent_ignored_witness :
  avl_inv (root example_tree)
  /\ ~ In 25 (keys (root example_tree))
  /\ exists self' out,
       delete example_tree 25 = Ok (self', out)
       /\ root self' = root example_tree
       /\ count_nodes self' = count_nodes example_tree
       /\ steps out = []
       /\ In (not_found_line 25) (logs out).
Proof.
  assert (Hinv : avl_inv (root example_tree)) by solve_inv.
  assert (Hin : ~ In 25 (keys (root example_tree))) by (simpl; lia).
  split; [exact Hinv|]. split; [exact Hin|].
  exact (delete_absent_ignored example_tree 25 Hinv Hin).
Defined.

(** [delete(10)] on 20 over 10 and 30, 30 over 40: back at 20 the right
    subtree is two levels taller and leans right, RR. *)
Lemma delete_dispatch_by_child_balance_witness :
  let node := Node 20 (Node 10 Nil Nil 1)
                (Node 30 Nil (Node 40 Nil Nil 1) 2) 3 in
  let s := {| logs := ["Delete 10"%string]; steps := [] |} in
  let s1 := {| logs := ["Delete 10"; "Found node 10 for deletion";
                        "Node 10 has no left child, replace with right child"
                       ]%string;
               steps := [{| desc := "Deleting 10"; graph := render node |}] |} in
  let node1 := Node 20 Nil (Node 30 Nil (Node 40 Nil Nil 1) 2) 3 in
  unwinds_to [] node 10 s node1 s1
  /\ spec_delete_case (get_balance node1) (get_balance Nil)
       (get_balance (Node 30 Nil (Node 40 Nil Nil 1) 2)) RR
  /\ dispatched RR node1 20 s1 (_delete [] node 10 s).
Proof.
  cbv zeta.
  assert (Hu : unwinds_to []
                 (Node 20 (Node 10 Nil Nil 1)
                    (Node 30 Nil (Node 40 Nil Nil 1) 2) 3) 10
                 {| logs := ["Delete 10"%string]; steps := [] |}
                 (Node 20 Nil (Node 30 Nil (Node 40 Nil Nil 1) 2) 3)
                 {| logs := ["Delete 10"; "Found node 10 for deletion";
                             "Node 10 has no left child, replace with right child"
                            ]%string;
                    steps := [{| desc := "Deleting 10";
                                 graph := render
                                   (Node 20 (Node 10 Nil Nil 1)
                                      (Node 30 Nil (Node 40 Nil Nil 1) 2) 3) |}]
                 |})
    by (apply unwind_left; [lia|vm_compute; reflexivity]).
  assert (Hc : spec_delete_case
                 (get_balance (Node 20 Nil (Node 30 Nil (Node 40 Nil Nil 1) 2) 3))
                 (get_balance Nil)
                 (get_balance (Node 30 Nil (Node 40 Nil Nil 1) 2)) RR)
    by (cbn; lia).
  split; [exact Hu|]. split; [exact Hc|].
  exact (delete_dispatch_by_child_balance _ _ _ _ _ _ _ _ _ RR Hu Hc).
Defined.

(** [delete(20)] on the tree holding 10, 20, 30 returns. *)
Lemma no_absent_child_dereferenced_witness :
  avl_inv (root example_tree)
  /\ exists out, apply_op example_tree (Delete 20) = Ok out.
Proof.
  assert (Hinv : avl_inv (root example_tree)) by solve_inv.
  split; [exact Hinv|].
  exact (proj1 (proj2 no_absent_child_dereferenced)
           example_tree (Delete 20) Hinv).
Defined.

(** * Further properties of the code *)

(** ** Search *)

Lemma search_in (t : tree) :
  increasing (keys t) -> forall k, _search t k = true <-> In k (keys t).
Proof.
  induction t as [|v l IHl r IHr h]; intros Hi k; cbn [_search keys].
  - split; [discriminate|intros []].
  - apply increasing_node in Hi. destruct Hi as (Hl & Hr & Hlv & Hvr).
    rewrite in_app_iff. cbn [In].
    destruct (Z.eqb_spec k v) as [->|Hne].
    + split; [intros _; right; left; reflexivity|reflexivity].
    + destruct (Z.ltb_spec k v) as [Hlt|Hge].
      * rewrite (IHl Hl). split; [intros H; left; exact H|].
        intros [H|[H|H]]; [exact H|congruence|].
        specialize (Hvr _ H). lia.
      * rewrite (IHr Hr). split; [intros H; right; right; exact H|].
        intros [H|[H|H]]; [|congruence|exact H].
        specialize (Hlv _ H). lia.
Qed.

Lemma search_same (t t' : tree) (k : Z) :
  increasing (keys t) -> increasing (keys t') ->
  (In k (keys t') <-> In k (keys t)) -> _search t' k = _search t k.
Proof.
  intros Hi Hi' Hiff.
  destruct (_search t k) eqn:E.
  - apply search_in; [exact Hi'|]. apply Hiff, search_in; assumption.
  - destruct (_search t' k) eqn:E'; [|reflexivity].
    apply search_in in E'; [|exact Hi']. apply Hiff in E'.
    apply search_in in E'; [|exact Hi]. congruence.
Qed.

(** X1.  On a tree in BST order, [search] answers true exactly for the keys
    of the tree. *)
Theorem search_finds_exactly_the_keys (self : AVLTree) (key : Z) :
  all_nodes bst_ok (root self) ->
  (search self key = true <-> In key (keys (root self))).
Proof.
  intros Hb. apply search_in, increasing_bst, Hb.
Qed.

(** X2.  On a tree satisfying the invariants, after [insert(key)] a search
    for [key] succeeds and the answer for every other key is unchanged. *)
Theorem insert_then_search (self : AVLTree) (key : Z) :
  avl_inv (root self) ->
  exists self' out,
    insert self key = Ok (self', out)
    /\ search self' key = true
    /\ forall k, k <> key -> search self' k = search self k.
Proof.
  intros Hinv.
  destruct (insert_inv self key Hinv) as (self' & out & Hrun & Hinv' & Hkeys).
  exists self', out. split; [exact Hrun|].
  apply avl_inv_shape in Hinv, Hinv'.
  destruct Hinv as [_ Hi]. destruct Hinv' as [_ Hi'].
  split.
  - apply search_in; [exact Hi'|]. apply Hkeys. left; reflexivity.
  - intros k Hne. apply search_same; try assumption.
    rewrite Hkeys. tauto.
Qed.

Lemma delete_keeps_others (t : tree) :
  forall c key s, shape t ->
  wp (_delete c t key) s (fun t' s' =>
      forall x, In x (keys t) -> x <> key -> In x (keys t')).
Proof.
  induction t as [|v l IHl r IHr h]; intros c key s Hs.
  - cbn [_delete]. wp_run. intros x [].
  - cbn [_delete]. pose proof Hs as Hs'.
    cbn [shape] in Hs. destruct Hs as (Hl & Hr & -> & Hb).
    destruct (Z.ltb_spec key v) as [Hlt|Hge].
    + apply wp_bind.
      eapply wp_mono;
        [apply (wp_conj _ _ _ _ (delete_spec l (InLeft v r _ :: c) key s Hl)
                  (IHl (InLeft v r _ :: c) key s Hl))|].
      cbv beta. intros l' s1 ((Hl' & Hh & _) & Hk).
      eapply wp_mono;
        [apply delete_rebalance_spec; try assumption; lia|].
      cbv beta. intros t' s2 (_ & Hkeys & _).
      rewrite Hkeys. cbn [keys]. intros x. rewrite !in_app_iff. cbn [In].
      intros [Hx|Hx] Hne; [left; apply Hk; assumption|right; exact Hx].
    + destruct (Z.gtb_spec key v) as [Hgt|Hle].
      * apply wp_bind.
        eapply wp_mono;
          [apply (wp_conj _ _ _ _ (delete_spec r (InRight v l _ :: c) key s Hr)
                    (IHr (InRight v l _ :: c) key s Hr))|].
        cbv beta. intros r' s1 ((Hr' & Hh & _) & Hk).
        eapply wp_mono;
          [apply delete_rebalance_spec; try assumption; lia|].
        cbv beta. intros t' s2 (_ & Hkeys & _).
        rewrite Hkeys. cbn [keys]. intros x. rewrite !in_app_iff. cbn [In].
        intros [Hx|[Hx|Hx]] Hne; [left; exact Hx|right; left; exact Hx|].
        right; right. apply Hk; assumption.
      * assert (key = v) as -> by lia. clear Hge Hle.
        apply wp_bind, wp_log. apply wp_bind, wp_record.
        destruct l as [|lv ll lr lh].
        { wp_run. cbn [keys app In]. intros x [Hx|Hx] Hne;
            [congruence|exact Hx]. }
        destruct r as [|rv rl rr rh].
        { wp_run. cbn [keys]. intros x. rewrite in_app_iff. cbn [In].
          intros [Hx|[Hx|[]]] Hne; [exact Hx|congruence]. }
        destruct (min_value_node_keys (Node rv rl rr rh))
          as (temp & tv & rest & Hmin & Hval & Hkeys); [discriminate|].
        rewrite Hmin. apply wp_bind, wp_lift. rewrite Hval.
        apply wp_bind, wp_lift. apply wp_bind, wp_log.
        apply wp_bind.
        eapply wp_mono;
          [apply (wp_conj _ _ _ _
                    (delete_spec (Node rv rl rr rh) (InRight tv _ _ :: c) tv _ Hr)
                    (IHr (InRight tv _ _ :: c) tv _ Hr))|].
        cbv beta. intros r' s1 ((Hr' & Hh & _) & Hk).
        eapply wp_mono;
          [apply delete_rebalance_spec; try assumption;
           cbn [get_height] in *; lia|].
        cbv beta. intros t' s2 (_ & Hkeys' & _).
        rewrite Hkeys'.
        change (keys (Node v (Node lv ll lr lh) (Node rv rl rr rh) _))
          with (keys (Node lv ll lr lh) ++ v :: keys (Node rv rl rr rh)).
        intros x. rewrite !in_app_iff. cbn [In].
        intros [Hx|[Hx|Hx]] Hne; [left; exact Hx|congruence|].
        destruct (Z.eq_dec x tv) as [->|Hxt]; [right; left; reflexivity|].
        right; right. apply Hk; assumption.
Qed.

(** X3.  On a tree satisfying the invariants, after [delete(key)] a search
    for [key] fails and the answer for every other key is unchanged. *)
Theorem delete_then_search (self : AVLTree) (key : Z) :
  avl_inv (root self) ->
  exists self' out,
    delete self key = Ok (self', out)
    /\ search self' key = false
    /\ forall k, k <> key -> search self' k = search self k.
Proof.
  intros Hinv.
  destruct (delete_inv self key Hinv) as (self' & out & Hrun & Hinv' & Hgone & Hsub).
  exists self', out. split; [exact Hrun|].
  pose proof Hinv as Hinv0.
  apply avl_inv_shape in Hinv, Hinv'.
  destruct Hinv as [Hs Hi]. destruct Hinv' as [_ Hi'].
  split.
  - destruct (search self' key) eqn:E; [|reflexivity].
    apply search_in in E; [contradiction|exact Hi'].
  - intros k Hne. apply search_same; try assumption.
    split; [apply Hsub|]. intros Hin.
    pose proof (delete_keeps_others (root self) [] key
                  {| logs := ["Delete " ^^ str key]; steps := [] |} Hs) as H.
    apply wp_exists in H. destruct H as (t' & s' & Hrun' & Hk).
    unfold delete in Hrun. cbn [root] in Hrun. rewrite Hrun' in Hrun.
    cbn [rbind fst snd] in Hrun. injection Hrun as <- _. cbn [root].
    apply Hk; assumption.
Qed.

(** ** Number of nodes *)

Lemma count_keys (t : tree) : _count t = Z.of_nat (length (keys t)).
Proof.
  induction t as [|v l IHl r IHr h]; cbn [_count keys]; [reflexivity|].
  rewrite length_app. cbn [length]. lia.
Qed.

Lemma count_of_node_keys (t' l r : tree) (v : Z) :
  keys t' = keys l ++ v :: keys r -> _count t' = 1 + _count l + _count r.
Proof.
  intros H. rewrite !count_keys, H, length_app. cbn [length]. lia.
Qed.

Lemma insert_count (t : tree) :
  forall c key s, shape t ->
  wp (_insert c t key) s (fun t' s' =>
      _count t' = _count t + (if _search t key then 0 else 1)).
Proof.
  induction t as [|v l IHl r IHr h]; intros c key s Hs.
  - cbn [_insert]. wp_run. reflexivity.
  - cbn [_insert _search]. cbn [shape] in Hs.
    destruct Hs as (Hl & Hr & -> & Hb).
    destruct (Z.eqb_spec key v) as [->|Hne].
    + destruct (Z.ltb_spec v v); [lia|]. destruct (Z.gtb_spec v v); [lia|].
      wp_run. lia.
    + destruct (Z.ltb_spec key v) as [Hlt|Hge].
      * apply wp_bind.
        eapply wp_mono;
          [apply (wp_conj _ _ _ _ (insert_spec l (InLeft v r _ :: c) key s Hl)
                    (IHl (InLeft v r _ :: c) key s Hl))|].
        cbv beta. intros l' s1 ((Hl' & Hh & _) & Hc).
        eapply wp_mono.
        { apply insert_rebalance_spec; try assumption; try lia;
            intros E; destruct Hh as [Hh|[_ Hg]];
            solve [exact Hg | exfalso; lia]. }
        cbv beta. intros t' s2 (_ & Hkeys & _).
        rewrite (count_of_node_keys _ _ _ _ Hkeys).
        cbn [_count] in *. lia.
      * destruct (Z.gtb_spec key v) as [Hgt|Hle]; [|lia].
        apply wp_bind.
        eapply wp_mono;
          [apply (wp_conj _ _ _ _ (insert_spec r (InRight v l _ :: c) key s Hr)
                    (IHr (InRight v l _ :: c) key s Hr))|].
        cbv beta. intros r' s1 ((Hr' & Hh & _) & Hc).
        eapply wp_mono.
        { apply insert_rebalance_spec; try assumption; try lia;
            intros E; destruct Hh as [Hh|[_ Hg]];
            solve [exact Hg | exfalso; lia]. }
        cbv beta. intros t' s2 (_ & Hkeys & _).
        rewrite (count_of_node_keys _ _ _ _ Hkeys).
        cbn [_count] in *. lia.
Qed.

Lemma delete_count (t : tree) :
  forall c key s, shape t -> increasing (keys t) ->
  wp (_delete c t key) s (fun t' s' =>
      _count t' = _count t - (if _search t key then 1 else 0)).
Proof.
  induction t as [|v l IHl r IHr h]; intros c key s Hs Hi.
  - cbn [_delete]. wp_run. reflexivity.
  - cbn [_delete _search]. cbn [shape keys] in Hs, Hi.
    destruct Hs as (Hl & Hr & -> & Hb).
    apply increasing_node in Hi. destruct Hi as (Hil & Hir & Hlv & Hvr).
    destruct (Z.eqb_spec key v) as [->|Hne].
    + destruct (Z.ltb_spec v v); [lia|]. destruct (Z.gtb_spec v v); [lia|].
      apply wp_bind, wp_log. apply wp_bind, wp_record.
      destruct l as [|lv ll lr lh]; [wp_run; cbn [_count]; lia|].
      destruct r as [|rv rl rr rh]; [wp_run; cbn [_count]; lia|].
      destruct (min_value_node_keys (Node rv rl rr rh))
        as (temp & tv & rest & Hmin & Hval & Hkeys); [discriminate|].
      rewrite Hmin. apply wp_bind, wp_lift. rewrite Hval.
      apply wp_bind, wp_lift. apply wp_bind, wp_log.
      apply wp_bind.
      eapply wp_mono;
        [apply (wp_conj _ _ _ _
                  (delete_spec (Node rv rl rr rh) (InRight tv _ _ :: c) tv _ Hr)
                  (IHr (InRight tv _ _ :: c) tv _ Hr Hir))|].
      cbv beta. intros r' s1 ((Hr' & Hh & _) & Hc).
      assert (Hfound : _search (Node rv rl rr rh) tv = true).
      { apply search_in; [exact Hir|]. rewrite Hkeys. left; reflexivity. }
      rewrite Hfound in Hc.
      eapply wp_mono;
        [apply delete_rebalance_spec; try assumption;
         cbn [get_height] in *; lia|].
      cbv beta. intros t' s2 (_ & Hkeys' & _).
      rewrite (count_of_node_keys _ _ _ _ Hkeys').
        cbn [_count] in *. lia.
    + destruct (Z.ltb_spec key v) as [Hlt|Hge].
      * apply wp_bind.
        eapply wp_mono;
          [apply (wp_conj _ _ _ _ (delete_spec l (InLeft v r _ :: c) key s Hl)
                    (IHl (InLeft v r _ :: c) key s Hl Hil))|].
        cbv beta. intros l' s1 ((Hl' & Hh & _) & Hc).
        eapply wp_mono;
          [apply delete_rebalance_spec; try assumption; lia|].
        cbv beta. intros t' s2 (_ & Hkeys & _).
        rewrite (count_of_node_keys _ _ _ _ Hkeys).
        cbn [_count] in *. lia.
      * destruct (Z.gtb_spec key v) as [Hgt|Hle]; [|lia].
        apply wp_bind.
        eapply wp_mono;
          [apply (wp_conj _ _ _ _ (delete_spec r (InRight v l _ :: c) key s Hr)
                    (IHr (InRight v l _ :: c) key s Hr Hir))|].
        cbv beta. intros r' s1 ((Hr' & Hh & _) & Hc).
        eapply wp_mono;
          [apply delete_rebalance_spec; try assumption; lia|].
        cbv beta. intros t' s2 (_ & Hkeys & _).
        rewrite (count_of_node_keys _ _ _ _ Hkeys).
        cbn [_count] in *. lia.
Qed.

(** X4.  On a tree satisfying the invariants, [insert(key)] adds one node when
    [search(key)] was false and none when it was true; [count_nodes] is the
    number of keys of the in-order traversal. *)
Theorem count_after_insert (self : AVLTree) (key : Z) :
  avl_inv (root self) ->
  exists self' out,
    insert self key = Ok (self', out)
    /\ count_nodes self'
       = count_nodes self + (if search self key then 0 else 1)
    /\ count_nodes self' = Z.of_nat (length (keys (root self'))).
Proof.
  intros Hinv. apply avl_inv_shape in Hinv. destruct Hinv as [Hs _].
  pose proof (insert_count (root self) [] key
                {| logs := ["Insert " ^^ str key]; steps := [] |} Hs) as H.
  apply wp_exists in H. destruct H as (t' & s' & Hrun & Hc).
  unfold insert. cbn [root]. rewrite Hrun. cbn [rbind fst snd].
  eexists _, _. split; [reflexivity|].
  unfold count_nodes, search. cbn [root]. split; [exact Hc|apply count_keys].
Qed.

(** X5.  On a tree satisfying the invariants, [delete(key)] removes one node
    when [search(key)] was true and none when it was false. *)
Theorem count_after_delete (self : AVLTree) (key : Z) :
  avl_inv (root self) ->
  exists self' out,
    delete self key = Ok (self', out)
    /\ count_nodes self'
       = count_nodes self - (if search self key then 1 else 0).
Proof.
  intros Hinv. apply avl_inv_shape in Hinv. destruct Hinv as [Hs Hi].
  pose proof (delete_count (root self) [] key
                {| logs := ["Delete " ^^ str key]; steps := [] |} Hs Hi) as H.
  apply wp_exists in H. destruct H as (t' & s' & Hrun & Hc).
  unfold delete. cbn [root]. rewrite Hrun. cbn [rbind fst snd].
  eexists _, _. split; [reflexivity|].
  unfold count_nodes, search. cbn [root]. exact Hc.
Qed.

(** ** Rotations, minimum, height *)

(** X6.  A rotation that returns keeps the in-order traversal and the number
    of nodes, and leaves the cached height right at the new subtree root and
    at the old one, which is now its child and keeps its key. *)
Theorem rotation_keeps_order :
  (forall y x,
     right_rotate y = Ok x ->
     keys x = keys y /\ _count x = _count y /\ height_ok x
     /\ exists old, attr_right x = Ok old /\ height_ok old
                    /\ attr_value old = attr_value y)
  /\ (forall x y,
        left_rotate x = Ok y ->
        keys y = keys x /\ _count y = _count x /\ height_ok y
        /\ exists old, attr_left y = Ok old /\ height_ok old
                       /\ attr_value old = attr_value x).
Proof.
  split.
  - intros [|yv [|xv xl xr xh] yr yh] x H; try discriminate H.
    cbn in H. injection H as <-. repeat split.
    + keys_eq.
    + cbn [_count]. lia.
    + eexists. repeat split.
  - intros [|xv xl [|yv yl yr yh] xh] y H; try discriminate H.
    cbn in H. injection H as <-. repeat split.
    + keys_eq.
    + cbn [_count]. lia.
    + eexists. repeat split.
Qed.

(** X7.  On a node whose cached height and whose rotated child's cached
    height are right, a left rotation undoes a right rotation and a right
    rotation undoes a left rotation. *)
Theorem rotations_undo_each_other :
  (forall y x,
     height_ok y -> (forall l, attr_left y = Ok l -> height_ok l) ->
     right_rotate y = Ok x -> left_rotate x = Ok y)
  /\ (forall x y,
        height_ok x -> (forall r, attr_right x = Ok r -> height_ok r) ->
        left_rotate x = Ok y -> right_rotate y = Ok x).
Proof.
  split.
  - intros [|yv [|xv xl xr xh] yr yh] x Hy Hl H; try discriminate H.
    specialize (Hl _ eq_refl). cbn [height_ok get_height] in Hy, Hl.
    cbn in H. injection H as <-.
    cbn [left_rotate rbind attr_right attr_left set_right set_left
         update_height set_height get_height].
    rewrite <- Hl, <- Hy. reflexivity.
  - intros [|xv xl [|yv yl yr yh] xh] y Hx Hr H; try discriminate H.
    specialize (Hr _ eq_refl). cbn [height_ok get_height] in Hx, Hr.
    cbn in H. injection H as <-.
    cbn [right_rotate rbind attr_right attr_left set_right set_left
         update_height set_height get_height].
    rewrite <- Hr, <- Hx. reflexivity.
Qed.

Lemma min_value_node_leftmost (t : tree) :
  t <> Nil ->
  exists temp tv rest,
    _min_value_node t = Ok temp /\ attr_value temp = Ok tv
    /\ attr_left temp = Ok Nil /\ keys t = tv :: rest.
Proof.
  induction t as [|v l IHl r' _ h]; intros Hne; [contradiction|].
  cbn [_min_value_node keys]. destruct l as [|lv ll lr lh].
  - exists (Node v Nil r' h), v, (keys r'). repeat split.
  - destruct IHl as (temp & tv & rest & Hmin & Hval & Hleft & Hkeys);
      [discriminate|].
    exists temp, tv, (rest ++ v :: keys r'). rewrite Hkeys.
    repeat split; assumption.
Qed.

(** X8.  On a present node in BST order, [_min_value_node] returns a node
    without a left child whose key is in the subtree and is its smallest
    key. *)
Theorem min_value_node_is_minimum (node : tree) :
  all_nodes bst_ok node -> node <> Nil ->
  exists temp v,
    _min_value_node node = Ok temp
    /\ attr_value temp = Ok v
    /\ attr_left temp = Ok Nil
    /\ In v (keys node)
    /\ forall k, In k (keys node) -> v <= k.
Proof.
  intros Hb Hne. apply increasing_bst in Hb.
  destruct (min_value_node_leftmost node Hne)
    as (temp & tv & rest & Hmin & Hval & Hleft & Hkeys).
  exists temp, tv. rewrite Hkeys in *. cbn [increasing] in Hb.
  destruct Hb as [Hall _]. repeat split; try assumption.
  - left; reflexivity.
  - intros k [<-|Hk]; [lia|]. specialize (Hall _ Hk). lia.
Qed.

Lemma depth_nonneg (t : tree) : 0 <= depth t.
Proof. induction t as [|v l IHl r IHr h]; cbn [depth]; lia. Qed.

(** X9.  Where the height cache is right at every node, [get_height] is the
    structural height of the tree. *)
Theorem cached_height_is_depth (t : tree) :
  all_nodes height_ok t -> get_height t = depth t.
Proof.
  induction t as [|v l IHl r IHr h]; cbn [all_nodes height_ok get_height depth];
    [reflexivity|].
  intros (-> & Hl & Hr). rewrite (IHl Hl), (IHr Hr). reflexivity.
Qed.

Lemma count_nonneg (t : tree) : 0 <= _count t.
Proof. induction t as [|v l IHl r IHr h]; cbn [_count]; lia. Qed.

Lemma shape_height_bound (t : tree) :
  shape t -> 2 ^ get_height t <= (_count t + 1) * (_count t + 1).
Proof.
  induction t as [|v l IHl r IHr h]; cbn [shape get_height _count].
  - intros _. cbn. lia.
  - intros (Hl & Hr & -> & Hb).
    specialize (IHl Hl). specialize (IHr Hr).
    pose proof (shape_nonneg _ Hl) as Hhl. pose proof (shape_nonneg _ Hr) as Hhr.
    pose proof (count_nonneg l) as Hcl. pose proof (count_nonneg r) as Hcr.
    set (a := _count l + 1) in *. set (b := _count r + 1) in *.
    set (hl := get_height l) in *. set (hr := get_height r) in *.
    replace (1 + _count l + _count r + 1) with (a + b) by (unfold a, b; lia).
    assert (Ha : 1 <= a) by (unfold a; lia).
    assert (Hbb : 1 <= b) by (unfold b; lia).
    assert (Hpl : 0 < 2 ^ hl) by (apply Z.pow_pos_nonneg; lia).
    assert (Hpr : 0 < 2 ^ hr) by (apply Z.pow_pos_nonneg; lia).
    rewrite Z.pow_add_r by lia. change (2 ^ 1) with 2.
    assert (Hcase : hl = hr \/ hl = hr + 1 \/ hr = hl + 1) by lia.
    destruct Hcase as [E|[E|E]].
    + rewrite E in *. rewrite Z.max_id. nia.
    + rewrite E in *. rewrite Z.max_l by lia.
      rewrite Z.pow_add_r in * by lia. change (2 ^ 1) with 2 in *.
      assert (2 ^ hr * 2 ^ hr * 2 <= (a * b) * (a * b)) by nia.
      assert (2 ^ hr <= a * b) by nia.
      nia.
    + rewrite E in *. rewrite Z.max_r by lia.
      rewrite Z.pow_add_r in * by lia. change (2 ^ 1) with 2 in *.
      assert (2 ^ hl * 2 ^ hl * 2 <= (a * b) * (a * b)) by nia.
      assert (2 ^ hl <= a * b) by nia.
      nia.
Qed.

(** X10.  The height of a balanced tree is logarithmic in its size: with the
    height cache and the balance right at every node, two to the power
    [get_height(root)] is at most the square of [count_nodes() + 1]. *)
Theorem height_is_logarithmic (self : AVLTree) :
  all_nodes height_ok (root self) -> all_nodes balance_ok (root self) ->
  2 ^ get_height (root self)
  <= (count_nodes self + 1) * (count_nodes self + 1).
Proof.
  intros Hh Hb. apply shape_height_bound, shape_all_nodes. split; assumption.
Qed.

(** ** Steps recorded by a call *)



Section InsertRebalanceSteps.

Variables (c : path) (v : Z) (l r : tree) (h key : Z) (s : Trace).
Hypothesis shape_l : shape l.
Hypothesis shape_r : shape r.
Hypothesis off_by_two : -2 <= get_height l - get_height r <= 2.
Hypothesis left_grew : get_height l - get_height r = 2 -> grew l key.
Hypothesis right_grew : get_height l - get_height r = -2 -> grew r key.


End InsertRebalanceSteps.



Section Extends.

Context {A B : Type}.

Lemma extends_ret (a : A) : extends (ret a).
Proof. intros s a' s' [= _ <-]. exists []. symmetry; apply app_nil_r. Qed.

Lemma extends_lift (r : Result A) : extends (lift r).
Proof.
  intros s a' s'. unfold lift. destruct r; [|discriminate].
  intros [= _ <-]. exists []. symmetry; apply app_nil_r.
Qed.

Lemma extends_bind (m : M A) (f : A -> M B) :
  extends m -> (forall a, extends (f a)) -> extends (bind m f).
Proof.
  intros Hm Hf s b s'. unfold bind.
  destruct (m s) as [[a s1]|] eqn:E; [|discriminate].
  intros Hrun. destruct (Hm s a s1 E) as [more1 H1].
  destruct (Hf a s1 b s' Hrun) as [more2 H2].
  exists (more1 ++ more2). rewrite H2, H1, app_assoc. reflexivity.
Qed.

End Extends.

Lemma extends_log (msg : string) : extends (log msg).
Proof. intros s a' s' [= _ <-]. exists []. symmetry; apply app_nil_r. Qed.

Lemma extends_record (reachable : tree) (d : string) (node : tree) :
  extends (record reachable d node).
Proof.
  intros s a s'. rewrite record_run. intros [= _ <-]. cbn [steps].
  eexists. reflexivity.
Qed.

Ltac extends_step :=
  first
    [ apply extends_ret
    | apply extends_log
    | apply extends_record
    | apply extends_lift
    | apply extends_bind; [|intros ?]
    | match goal with
      | |- extends (if ?b then _ else _) => destruct b
      | |- extends (match ?t with Nil => _ | Node _ _ _ _ => _ end) =>
          destruct t
      end ].

Lemma delete_rebalance_extends (c : path) (node : tree) :
  extends (_delete_rebalance c node).
Proof. unfold _delete_rebalance. repeat extends_step. Qed.

Lemma delete_extends (node : tree) :
  forall c key, extends (_delete c node key).
Proof.
  induction node as [|v l IHl r IHr h]; intros c key; cbn [_delete].
  - repeat extends_step.
  - destruct (key <? v); [|destruct (key >? v)].
    + apply extends_bind; [apply IHl|intros; apply delete_rebalance_extends].
    + apply extends_bind; [apply IHr|intros; apply delete_rebalance_extends].
    + apply extends_bind; [apply extends_log|intros _].
      apply extends_bind; [apply extends_record|intros _].
      destruct l as [|lv ll lr lh]; [repeat extends_step|].
      destruct r as [|rv rl rr rh]; [repeat extends_step|].
      apply extends_bind; [apply extends_lift|intros temp].
      apply extends_bind; [apply extends_lift|intros tv].
      apply extends_bind; [apply extends_log|intros _].
      apply extends_bind; [apply IHr|intros; apply delete_rebalance_extends].
Qed.

Lemma delete_first_step (t : tree) :
  forall c key s s' t',
  increasing (keys t) -> In key (keys t) ->
  _delete c t key s = Ok (t', s') ->
  exists more,
    steps s'
    = steps s
      ++ {| desc := "Deleting " ^^ str key;
            graph := render (self_root c t) |} :: more.
Proof.
  induction t as [|v l IHl r IHr h]; intros c key s s' t' Hi Hin Hrun;
    [destruct Hin|].
  cbn [_delete] in Hrun. cbn [keys] in Hi, Hin.
  apply increasing_node in Hi. destruct Hi as (Hil & Hir & Hlv & Hvr).
  apply in_app_or in Hin.
  destruct (Z.ltb_spec key v) as [Hlt|Hge].
  - assert (Hkl : In key (keys l)).
    { destruct Hin as [Hin|[->|Hin]]; [exact Hin|lia|].
      specialize (Hvr _ Hin). lia. }
    unfold bind in Hrun at 1.
    destruct (_delete _ l key s) as [[l' s1]|] eqn:E; [|discriminate].
    destruct (IHl _ _ _ _ _ Hil Hkl E) as [more Hst].
    destruct (delete_rebalance_extends _ _ _ _ _ Hrun) as [more' Hst'].
    exists (more ++ more'). rewrite Hst', Hst, <- app_assoc. reflexivity.
  - destruct (Z.gtb_spec key v) as [Hgt|Hle].
    + assert (Hkr : In key (keys r)).
      { destruct Hin as [Hin|[->|Hin]]; [|lia|exact Hin].
        specialize (Hlv _ Hin). lia. }
      unfold bind in Hrun at 1.
      destruct (_delete _ r key s) as [[r' s1]|] eqn:E; [|discriminate].
      destruct (IHr _ _ _ _ _ Hir Hkr E) as [more Hst].
      destruct (delete_rebalance_extends _ _ _ _ _ Hrun) as [more' Hst'].
      exists (more ++ more'). rewrite Hst', Hst, <- app_assoc. reflexivity.
    + assert (key = v) as -> by lia.
      rewrite bind_log, bind_record in Hrun.
      assert (Hrest : forall (m : M tree) s0,
                 extends m -> m s0 = Ok (t', s') ->
                 exists more, steps s' = steps s0 ++ more)
        by (intros m s0 Hm; apply Hm).
      match type of Hrun with
      | ?m ?s0 = _ =>
          destruct (Hrest m s0) as [more Hst]; [|exact Hrun|]
      end.
      * destruct l as [|lv ll lr lh]; [repeat extends_step|].
        destruct r as [|rv rl rr rh]; [repeat extends_step|].
        apply extends_bind; [apply extends_lift|intros temp].
        apply extends_bind; [apply extends_lift|intros tv].
        apply extends_bind; [apply extends_log|intros _].
        apply extends_bind;
          [apply delete_extends|intros; apply delete_rebalance_extends].
      * exists more. rewrite Hst. cbn [steps]. rewrite <- app_assoc.
        reflexivity.
Qed.

(** X12.  On a tree satisfying the invariants, [delete] of a present key
    records first the step "Deleting key", whose graph is the rendering of
    the whole tree as it was before the call. *)
Theorem deleting_step_renders_tree_before (self : AVLTree) (key : Z) :
  avl_inv (root self) -> In key (keys (root self)) ->
  exists self' out g more,
    delete self key = Ok (self', out)
    /\ tree_to_graphviz (root self) None = Ok g
    /\ steps out = {| desc := "Deleting " ^^ str key; graph := g |} :: more.
Proof.
  intros Hinv Hin.
  destruct (delete_inv self key Hinv) as (self' & out & Hrun & _).
  apply avl_inv_shape in Hinv. destruct Hinv as [_ Hi].
  pose proof Hrun as Hrun0.
  unfold delete in Hrun. cbn [root] in Hrun.
  destruct (_delete [] (root self) key _) as [[t' s']|] eqn:E;
    [|discriminate].
  cbn [rbind fst snd] in Hrun. injection Hrun as _ <-.
  destruct (delete_first_step _ _ _ _ _ _ Hi Hin E) as [more Hst].
  exists self', s', (render (root self)), more.
  split; [exact Hrun0|]. split; [apply tree_to_graphviz_total|exact Hst].
Qed.

(** ** What the recorded steps show *)



Section InsertRebalanceViews.

Variables (c : path) (v : Z) (l r : tree) (h key : Z) (s : Trace).
Hypothesis shape_l : shape l.
Hypothesis shape_r : shape r.
Hypothesis off_by_two : -2 <= get_height l - get_height r <= 2.
Hypothesis left_grew : get_height l - get_height r = 2 -> grew l key.
Hypothesis right_grew : get_height l - get_height r = -2 -> grew r key.


End InsertRebalanceViews.

Section DeleteRebalanceViews.

Variables (c : path) (v : Z) (l r : tree) (h : Z) (s : Trace).
Hypothesis shape_l : shape l.
Hypothesis shape_r : shape r.
Hypothesis off_by_two : -2 <= get_height l - get_height r <= 2.


End DeleteRebalanceViews.










(** ** Rendering, pseudocode and the page *)

Lemma render_nodes_count (t : tree) :
  forall me,
    length (filter is_node_stmt (render_nodes me t)) = length (keys t)
    /\ length (filter is_edge_stmt (render_nodes me t))
       = Nat.pred (length (keys t)).
Proof.
  induction t as [|v l IHl r IHr h]; intros me; [split; reflexivity|].
  cbn [render_nodes keys]. cbn [filter is_node_stmt is_edge_stmt length].
  rewrite !filter_app, !length_app. cbn [length].
  destruct l as [|lv ll lr lh]; destruct r as [|rv rl rr rh];
    cbn [filter is_node_stmt is_edge_stmt length app].
  - split; reflexivity.
  - destruct (IHr (me ++ [true])) as [-> ->].
    cbn [keys]. rewrite length_app. cbn [length]. split; lia.
  - destruct (IHl (me ++ [false])) as [-> ->].
    cbn [keys]. rewrite !length_app. cbn [length]. split; lia.
  - destruct (IHl (me ++ [false])) as [-> ->].
    destruct (IHr (me ++ [true])) as [-> ->].
    cbn [keys]. rewrite !length_app. cbn [length]. split; lia.
Qed.

(** X13.  [tree_to_graphviz] never raises; the graph has one node statement
    per key and, below a present root, one edge statement per key but one;
    the placeholder "Empty" appears exactly for the empty tree. *)
Theorem graph_has_a_node_per_key (t : tree) (highlight : option Z) :
  exists g,
    tree_to_graphviz t highlight = Ok g
    /\ length (filter is_node_stmt g) = length (keys t)
    /\ length (filter is_edge_stmt g) = Nat.pred (length (keys t))
    /\ (In DotEmpty g <-> t = Nil).
Proof.
  exists (render t). split; [apply tree_to_graphviz_total|].
  destruct t as [|v l r h].
  - cbn. repeat split; auto.
  - unfold render. cbn [filter is_node_stmt is_edge_stmt].
    destruct (render_nodes_count (Node v l r h) []) as [-> ->].
    repeat split; try discriminate.
    intros [H|H]; [discriminate H|]. exfalso.
    assert (Hno : forall t me, ~ In DotEmpty (render_nodes me t)).
    { clear. induction t as [|v l IHl r IHr h]; intros me; [intros []|].
      cbn [render_nodes]. intros [H|H]; [discriminate H|].
      apply in_app_or in H. destruct H as [H|H].
      - destruct l; [destruct H|]. destruct H as [H|H]; [discriminate H|].
        exact (IHl _ H).
      - destruct r; [destruct H|]. destruct H as [H|H]; [discriminate H|].
        exact (IHr _ H). }
    exact (Hno _ _ H).
Qed.

Lemma render_nodes_red (t : tree) :
  forall me,
    forallb (fun st => negb (is_red st)) (render_nodes me t) = true
    <-> all_nodes balance_ok t.
Proof.
  induction t as [|v l IHl r IHr h]; intros me.
  - cbn. tauto.
  - cbn [render_nodes all_nodes forallb]. rewrite forallb_app.
    rewrite !andb_true_iff.
    assert (Hl : forallb (fun st => negb (is_red st))
                   match l with
                   | Nil => []
                   | Node _ _ _ _ =>
                       DotEdge me (me ++ [false])
                       :: render_nodes (me ++ [false]) l
                   end = true <-> all_nodes balance_ok l).
    { destruct l; [cbn; tauto|]. cbn [forallb is_red negb andb]. apply IHl. }
    assert (Hr : forallb (fun st => negb (is_red st))
                   match r with
                   | Nil => []
                   | Node _ _ _ _ =>
                       DotEdge me (me ++ [true])
                       :: render_nodes (me ++ [true]) r
                   end = true <-> all_nodes balance_ok r).
    { destruct r; [cbn; tauto|]. cbn [forallb is_red negb andb]. apply IHr. }
    change (balance_ok (Node v l r h))
      with (-1 <= get_height l - get_height r <= 1).
    rewrite Hl, Hr. cbn [is_red].
    destruct (Z.gtb_spec (Z.abs (get_height l - get_height r)) 1) as [Hgt|Hle].
    + cbn. split; [intros [H _]; discriminate H|]. intros [H _]. lia.
    + cbn. split; [intros [_ H]; split; [lia|exact H]|].
      intros [_ H]. split; [reflexivity|exact H].
Qed.

(** X14.  The graph has no red node exactly when every node of the tree has a
    balance between -1 and 1; so the tree left by any sequence of calls is
    rendered without a red node. *)
Theorem red_marks_unbalanced_nodes :
  (forall t highlight,
     exists g,
       tree_to_graphviz t highlight = Ok g
       /\ (forallb (fun st => negb (is_red st)) g = true
           <-> all_nodes balance_ok t))
  /\ (forall ops,
        exists self g,
          run AVLTree_init ops = Ok self
          /\ tree_to_graphviz (root self) None = Ok g
          /\ forallb (fun st => negb (is_red st)) g = true).
Proof.
  assert (H : forall t highlight,
     exists g,
       tree_to_graphviz t highlight = Ok g
       /\ (forallb (fun st => negb (is_red st)) g = true
           <-> all_nodes balance_ok t)).
  { intros t highlight. exists (render t).
    split; [apply tree_to_graphviz_total|].
    destruct t as [|v l r h]; [cbn; tauto|].
    unfold render. cbn [forallb is_red negb andb]. apply render_nodes_red. }
  split; [exact H|].
  intros ops.
  destruct (run_inv ops AVLTree_init init_inv) as (self & Hrun & _ & Hb & _).
  destruct (H (root self) None) as (g & Hg & Hiff).
  exists self, g. repeat split; try assumption. apply Hiff, Hb.
Qed.

(** X15.  After a call of [insert] the page shows the insertion pseudocode,
    and after a call of [delete] the deletion pseudocode, whatever the key. *)
Theorem pseudocode_follows_last_call (self : AVLTree) (o : op)
    (self' : AVLTree) (out : Trace) :
  apply_op self o = Ok (self', out) ->
  shown_pseudocode self'
  = match o with
    | Insert _ => insert_pseudocode
    | Delete _ => delete_pseudocode
    end.
Proof.
  destruct o as [key|key]; cbn [apply_op].
  - unfold insert. cbn [root].
    destruct (_insert [] (root self) key _) as [[t' s']|]; [|discriminate].
    cbn [rbind fst snd last_action]. intros [= <- _]. reflexivity.
  - unfold delete. cbn [root].
    destruct (_delete [] (root self) key _) as [[t' s']|]; [|discriminate].
    cbn [rbind fst snd last_action]. intros [= <- _]. reflexivity.
Qed.

(** On a new tree the page passes its own default text on, and the helper
    answers with the fallback for an unknown action. *)
Lemma fresh_tree_pseudocode :
  shown_pseudocode AVLTree_init
  = "Action: No actions yet." ^^ nl ^^ "No detailed pseudocode available.".
Proof. reflexivity. Qed.

(** X16.  The page writes the last 200 log lines at most, all of them lines of
    the log, the most recent first. *)
Theorem shown_logs_are_the_latest (session_logs : list string) :
  length (shown_logs session_logs) = Nat.min 200 (length session_logs)
  /\ (forall msg, In msg (shown_logs session_logs) -> In msg session_logs)
  /\ (forall msg, hd_error (shown_logs (session_logs ++ [msg])) = Some msg).
Proof.
  unfold shown_logs. repeat split.
  - rewrite length_rev, length_skipn. lia.
  - intros msg H. apply in_rev in H.
    rewrite <- (firstn_skipn (length session_logs - 200) session_logs).
    apply in_or_app. right; exact H.
  - intros msg. rewrite length_app. cbn [length].
    rewrite skipn_app.
    replace (length session_logs + 1 - 200 - length session_logs)%nat
      with 0%nat by lia.
    cbn [skipn]. rewrite rev_app_distr. reflexivity.
Qed.

Lemma getitem_in_range {A : Type} (l : list A) (i : Z) :
  0 <= i < Z.of_nat (length l) -> exists x, getitem l i = Some x.
Proof.
  intros Hi. unfold getitem.
  destruct (Z.leb_spec 0 i); [|lia].
  destruct (Z.ltb_spec i (Z.of_nat (length l))); [|lia].
  cbn [andb]. destruct (nth_error l (Z.to_nat i)) eqn:E;
    [eexists; reflexivity|].
  apply nth_error_None in E. lia.
Qed.

(** X17.  The playback block never indexes the steps out of range: in step
    mode with steps to show it writes a step number between 1 and the number
    of steps (the stored index plus one when that index was in range) and
    leaves the stored index within the list, whichever buttons were pressed;
    otherwise it writes nothing and changes nothing. *)
Theorem playback_index_in_range (ss : Session) (prev_btn next_btn : bool) :
  exists shown ss',
    playback ss prev_btn next_btn = Some (shown, ss')
    /\ session_steps ss' = session_steps ss
    /\ (step_mode ss = true -> session_steps ss <> [] ->
        0 <= step_index ss' < Z.of_nat (length (session_steps ss))
        /\ exists sh,
             shown = Some sh
             /\ 1 <= shown_number sh <= shown_total sh
             /\ shown_total sh = Z.of_nat (length (session_steps ss))
             /\ (0 <= step_index ss < shown_total sh ->
                 shown_number sh = step_index ss + 1))
    /\ (step_mode ss = false \/ session_steps ss = [] ->
        shown = None /\ ss' = ss).
Proof.
  unfold playback.
  destruct (step_mode ss) eqn:Hmode; cbn [andb];
    [|eexists _, _; repeat split; try discriminate; reflexivity].
  destruct (Nat.eqb_spec (length (session_steps ss)) 0) as [Hz|Hnz];
    cbn [negb].
  { assert (Hnil : session_steps ss = [])
      by (destruct (session_steps ss); [reflexivity|discriminate Hz]).
    eexists _, _. split; [reflexivity|]. split; [reflexivity|].
    split; [intros _ Hne; contradiction|]. intros _. split; reflexivity. }
  set (total := Z.of_nat (length (session_steps ss))).
  assert (Htotal : 1 <= total) by (unfold total; lia).
  assert (Hne : session_steps ss <> [])
    by (intros E; rewrite E in Hnz; apply Hnz; reflexivity).
  destruct (Z.ltb_spec (step_index ss) 0) as [Hneg|Hpos];
    [destruct (Z.geb_spec 0 total) as [Hbig|Hsmall]
    |destruct (Z.geb_spec (step_index ss) total) as [Hbig|Hsmall]];
    try lia;
    cbn [session_steps set_step_index];
    match goal with
    | |- context [getitem (session_steps ss) ?i] =>
        destruct (getitem_in_range (session_steps ss) i) as [st ->];
        [fold total; lia|]
    end;
    (eexists _, _; split; [reflexivity|]);
    (split;
     [ destruct prev_btn, next_btn; cbn [andb];
       repeat match goal with
              | |- context [?a >? ?b] => destruct (Z.gtb_spec a b)
              | |- context [?a <? ?b] => destruct (Z.ltb_spec a b)
              end; reflexivity |]);
    (split; [|intros [H|H]; [discriminate H|contradiction]]);
    intros _ _;
    (split;
     [ destruct prev_btn, next_btn; cbn [andb];
       repeat match goal with
              | |- context [?a >? ?b] => destruct (Z.gtb_spec a b)
              | |- context [?a <? ?b] => destruct (Z.ltb_spec a b)
              end;
       cbn [step_index set_should_rerun set_step_index]; lia
     | eexists; split; [reflexivity|];
       cbn [shown_number shown_total]; repeat split; lia ]).
Qed.

(** ** The further properties at concrete inputs *)

(** [search(30)] on the tree holding 10, 20, 30. *)
Lemma search_finds_exactly_the_keys_witness :
  all_nodes bst_ok (root example_tree)
  /\ (search example_tree 30 = true <-> In 30 (keys (root example_tree))).
Proof.
  assert (Hinv : avl_inv (root example_tree)) by solve_inv.
  split; [exact (proj2 (proj2 Hinv))|].
  exact (search_finds_exactly_the_keys example_tree 30 (proj2 (proj2 Hinv))).
Defined.

(** [insert(25)] on the tree holding 10, 20, 30. *)
Lemma insert_then_search_witness :
  avl_inv (root example_tree)
  /\ exists self' out,
       insert example_tree 25 = Ok (self', out)
       /\ search self' 25 = true
       /\ forall k, k <> 25 -> search self' k = search example_tree k.
Proof.
  assert (Hinv : avl_inv (root example_tree)) by solve_inv.
  split; [exact Hinv|]. exact (insert_then_search example_tree 25 Hinv).
Defined.

(** [delete(20)] on the tree holding 10, 20, 30. *)
Lemma delete_then_search_witness :
  avl_inv (root example_tree)
  /\ exists self' out,
       delete example_tree 20 = Ok (self', out)
       /\ search self' 20 = false
       /\ forall k, k <> 20 -> search self' k = search example_tree k.
Proof.
  assert (Hinv : avl_inv (root example_tree)) by solve_inv.
  split; [exact Hinv|]. exact (delete_then_search example_tree 20 Hinv).
Defined.

Lemma count_after_insert_witness :
  avl_inv (root example_tree)
  /\ exists self' out,
       insert example_tree 25 = Ok (self', out)
       /\ count_nodes self'
          = count_nodes example_tree
            + (if search example_tree 25 then 0 else 1)
       /\ count_nodes self' = Z.of_nat (length (keys (root self'))).
Proof.
  assert (Hinv : avl_inv (root example_tree)) by solve_inv.
  split; [exact Hinv|]. exact (count_after_insert example_tree 25 Hinv).
Defined.

Lemma count_after_delete_witness :
  avl_inv (root example_tree)
  /\ exists self' out,
       delete example_tree 20 = Ok (self', out)
       /\ count_nodes self'
          = count_nodes example_tree
            - (if search example_tree 20 then 1 else 0).
Proof.
  assert (Hinv : avl_inv (root example_tree)) by solve_inv.
  split; [exact Hinv|]. exact (count_after_delete example_tree 20 Hinv).
Defined.

(** A right rotation of the left-leaning chain 30, 20, 10. *)
Lemma rotation_keeps_order_witness :
  let y := Node 30 (Node 20 (Node 10 Nil Nil 1) Nil 2) Nil 3 in
  let x := Node 20 (Node 10 Nil Nil 1) (Node 30 Nil Nil 1) 2 in
  right_rotate y = Ok x
  /\ keys x = keys y /\ _count x = _count y /\ height_ok x
  /\ exists old, attr_right x = Ok old /\ height_ok old
                 /\ attr_value old = attr_value y.
Proof.
  cbv zeta. split; [reflexivity|].
  exact (proj1 rotation_keeps_order
           (Node 30 (Node 20 (Node 10 Nil Nil 1) Nil 2) Nil 3)
           (Node 20 (Node 10 Nil Nil 1) (Node 30 Nil Nil 1) 2) eq_refl).
Defined.

(** A right rotation of 20 over 10 and 30, undone by a left rotation. *)
Lemma rotations_undo_each_other_witness :
  let y := Node 20 (Node 10 Nil Nil 1) (Node 30 Nil Nil 1) 2 in
  let x := Node 10 Nil (Node 20 Nil (Node 30 Nil Nil 1) 2) 3 in
  height_ok y
  /\ (forall l, attr_left y = Ok l -> height_ok l)
  /\ right_rotate y = Ok x
  /\ left_rotate x = Ok y.
Proof.
  cbv zeta.
  assert (Hy : height_ok (Node 20 (Node 10 Nil Nil 1) (Node 30 Nil Nil 1) 2))
    by reflexivity.
  assert (Hl : forall l,
             attr_left (Node 20 (Node 10 Nil Nil 1) (Node 30 Nil Nil 1) 2)
             = Ok l -> height_ok l)
    by (intros l [= <-]; reflexivity).
  split; [exact Hy|]. split; [exact Hl|]. split; [reflexivity|].
  exact (proj1 rotations_undo_each_other _ _ Hy Hl eq_refl).
Defined.

Lemma min_value_node_is_minimum_witness :
  all_nodes bst_ok (root example_tree)
  /\ root example_tree <> Nil
  /\ exists temp v,
       _min_value_node (root example_tree) = Ok temp
       /\ attr_value temp = Ok v
       /\ attr_left temp = Ok Nil
       /\ In v (keys (root example_tree))
       /\ forall k, In k (keys (root example_tree)) -> v <= k.
Proof.
  assert (Hinv : avl_inv (root example_tree)) by solve_inv.
  assert (Hne : root example_tree <> Nil) by discriminate.
  split; [exact (proj2 (proj2 Hinv))|]. split; [exact Hne|].
  exact (min_value_node_is_minimum (root example_tree)
           (proj2 (proj2 Hinv)) Hne).
Defined.

Lemma cached_height_is_depth_witness :
  all_nodes height_ok (root example_tree)
  /\ get_height (root example_tree) = depth (root example_tree).
Proof.
  assert (Hinv : avl_inv (root example_tree)) by solve_inv.
  split; [exact (proj1 Hinv)|].
  exact (cached_height_is_depth (root example_tree) (proj1 Hinv)).
Defined.

Lemma height_is_logarithmic_witness :
  all_nodes height_ok (root example_tree)
  /\ all_nodes balance_ok (root example_tree)
  /\ 2 ^ get_height (root example_tree)
     <= (count_nodes example_tree + 1) * (count_nodes example_tree + 1).
Proof.
  assert (Hinv : avl_inv (root example_tree)) by solve_inv.
  split; [exact (proj1 Hinv)|]. split; [exact (proj1 (proj2 Hinv))|].
  exact (height_is_logarithmic example_tree (proj1 Hinv)
           (proj1 (proj2 Hinv))).
Defined.


Lemma deleting_step_renders_tree_before_witness :
  avl_inv (root example_tree)
  /\ In 20 (keys (root example_tree))
  /\ exists self' out g more,
       delete example_tree 20 = Ok (self', out)
       /\ tree_to_graphviz (root example_tree) None = Ok g
       /\ steps out = {| desc := "Deleting " ^^ str 20; graph := g |} :: more.
Proof.
  assert (Hinv : avl_inv (root example_tree)) by solve_inv.
  assert (Hin : In 20 (keys (root example_tree))) by (simpl; lia).
  split; [exact Hinv|]. split; [exact Hin|].
  exact (deleting_step_renders_tree_before example_tree 20 Hinv Hin).
Defined.

(** [insert(10)] on a new tree, then the pseudocode panel. *)
Lemma pseudocode_follows_last_call_witness :
  let self' := {| root := Node 10 Nil Nil 1;
                  last_action := Some "Insert 10"%string |} in
  let out := {| logs := ["Insert 10"; "Created node 10"]%string;
                steps := [{| desc := "Inserted 10";
                             graph := [DotNodeShapeCircle; DotEmpty] |}] |} in
  apply_op AVLTree_init (Insert 10) = Ok (self', out)
  /\ shown_pseudocode self' = insert_pseudocode.
Proof.
  cbv zeta.
  assert (Hrun : apply_op AVLTree_init (Insert 10)
                 = Ok ({| root := Node 10 Nil Nil 1;
                          last_action := Some "Insert 10"%string |},
                       {| logs := ["Insert 10"; "Created node 10"]%string;
                          steps := [{| desc := "Inserted 10";
                                       graph := [DotNodeShapeCircle;
                                                 DotEmpty] |}] |}))
    by reflexivity.
  split; [exact Hrun|].
  exact (pseudocode_follows_last_call _ _ _ _ Hrun).
Defined.

(** Two steps, a stored index of 5, and "Next Step" pressed. *)
Lemma playback_index_in_range_witness :
  let st := {| desc := "Inserted 10";
               graph := [DotNodeShapeCircle; DotEmpty] |} in
  let ss := {| step_mode := true; session_steps := [st; st];
               step_index := 5; should_rerun := false |} in
  step_mode ss = true
  /\ session_steps ss <> []
  /\ exists shown ss',
       playback ss false true = Some (shown, ss')
       /\ 0 <= step_index ss' < 2.
Proof.
  cbv zeta. split; [reflexivity|]. split; [discriminate|].
  destruct (playback_index_in_range
              {| step_mode := true;
                 session_steps :=
                   [{| desc := "Inserted 10";
                       graph := [DotNodeShapeCircle; DotEmpty] |};
                    {| desc := "Inserted 10";
                       graph := [DotNodeShapeCircle; DotEmpty] |}];
                 step_index := 5; should_rerun := false |} false true)
    as (shown & ss' & Hrun & _ & Hin & _).
  exists shown, ss'. split; [exact Hrun|].
  exact (proj1 (Hin eq_refl ltac:(discriminate))).
Defined.
